(** * tsuru-client installer: a shallow embedding of [installer/install.go]

    The development follows the source file function by function:
    [parseDriverOptsSlice], [parseConfigFile], [ProvisionMachines],
    [ProvisionPool], the component loop and the host registration of
    [Install.Run], and [addInstallHosts].

    Go maps are [gmap]s, Go [int]s are [Z], slices are lists, and a Go
    function that returns [(T, error)] and may also fault at run time
    returns an [outcome T].  External collaborators (the machine
    provisioner, the components, the HTTP client, the configuration
    library) are interfaces whose state is passed explicitly, together
    with a log of the calls made on them. *)

From Stdlib Require Import ZArith String Ascii List.
From stdpp Require Import gmap strings list fin_maps.

Set Warnings "-register-all".
Local Open Scope Z_scope.

(** ** Results of Go calls *)

(** The run-time faults this file can raise. *)
Inductive panic :=
  | DivideByZero          (* integer divide by zero *)
  | IndexOutOfRange       (* index out of range *)
  | SliceBoundsOutOfRange (* slice bounds out of range *)
  | InterfaceConversion   (* failed unchecked type assertion *)
  | NilMapAssignment.     (* assignment to entry in nil map *)

Inductive outcome (A : Type) :=
  | Ok (a : A)
  | Err (e : string)
  | Panic (p : panic).
Arguments Ok {A} a.
Arguments Err {A} e.
Arguments Panic {A} p.

(** What an external call hands back: a value or an error message. *)
Definition result (A : Type) : Type := A + string.

(** ** Dynamic values ([interface{}]) as the YAML reader produces them *)

Inductive value :=
  | VNil
  | VBool (b : bool)
  | VInt (n : Z)
  | VStr (s : string)
  | VSeq (l : list value)              (* []interface{} *)
  | VMap (m : list (value * value)).   (* map[interface{}]interface{} *)

(** [VMap] lists the entries of the map in the order [range] visits
    them, which Go leaves unspecified. *)

(** ** Package [dm] (declarations only; the package is not part of the
    modelled file) *)

(** [dm.DriverOpts = map[string]interface{}] *)
Abbreviation DriverOpts := (gmap string value).

Module dm.

Record Machine := {
  Name : string;
  DriverName : string;
  Driver : value;           (* opaque driver descriptor *)
  CAPath : string;
  SSHKeyPath : string;      (* GetSSHKeyPath() *)
  PrivateAddress : string   (* GetPrivateAddress() *)
}.

Record DockerMachineConfig := {
  cfgDriverName : string;
  cfgDriverOpts : DriverOpts;
  cfgCAPath : string;
  cfgName : string;
  cfgDockerHubMirror : string
}.

(** The provisioner capability: the three operations the installer
    calls on it, over an explicit provisioner state [P]. *)
Class MachineProvisioner (P : Type) := {
  ProvisionMachine : DriverOpts → P → result Machine * P;
  DeleteAll : P → option string * P;
  Close : P → P
}.

(** The calls made on a provisioner, with what it answered. *)
Inductive call :=
  | CallProvision (opts : DriverOpts) (r : result Machine)
  | CallDeleteAll
  | CallClose.

End dm.
Abbreviation Machine := dm.Machine.

(** A provisioner together with the log of calls made on it so far. *)
Definition logged (P : Type) : Type := P * list dm.call.

Definition callProvisionMachine `{dm.MachineProvisioner P}
    (opts : DriverOpts) (w : logged P) : result Machine * logged P :=
  let '(r, p') := dm.ProvisionMachine opts w.1 in
  (r, (p', w.2 ++ [dm.CallProvision opts r])).

(** ** [ProvisionMachines] *)

(** [v[idx]] on a slice: faults outside [0, len(v)). *)
Definition index {A} (v : list A) (idx : Z) : option A :=
  if decide (0 ≤ idx < Z.of_nat (length v)) then v !! Z.to_nat idx else None.

(** The inner loop: [for k, v := range configs { idx := i % len(v);
    opts[k] = v[idx] }], over the entries in the order [range] yields
    them.  Go's [%] truncates, hence [Z.rem]. *)
Fixpoint selectOptsIn (i : Z) (entries : list (string * list value))
    (opts : DriverOpts) : outcome DriverOpts :=
  match entries with
  | [] => Ok opts
  | (k, v) :: rest =>
      if decide (Z.of_nat (length v) = 0) then Panic DivideByZero
      else
        let idx := Z.rem i (Z.of_nat (length v)) in
        match index v idx with
        | Some x => selectOptsIn i rest (<[k:=x]> opts)
        | None => Panic IndexOutOfRange
        end
  end.

Definition selectOpts (i : Z) (configs : gmap string (list value))
    : outcome DriverOpts :=
  selectOptsIn i (map_to_list configs) ∅.

(** The outer loop, over the indices [0, 1, ..., numMachines-1]. *)
Fixpoint provisionEach `{dm.MachineProvisioner P} (idxs : list Z)
    (configs : gmap string (list value)) (machines : list Machine)
    (w : logged P) : outcome (list Machine) * logged P :=
  match idxs with
  | [] => (Ok machines, w)
  | i :: rest =>
      match selectOpts i configs with
      | Ok opts =>
          match callProvisionMachine opts w with
          | (inl m, w') => provisionEach rest configs (machines ++ [m]) w'
          | (inr err, w') =>
              (Err ("failed to provision machines: " +:+ err), w')
          end
      | Err e => (Err e, w)
      | Panic p => (Panic p, w)
      end
  end.

Definition ProvisionMachines `{dm.MachineProvisioner P} (numMachines : Z)
    (configs : gmap string (list value)) (w : logged P)
    : outcome (list Machine) * logged P :=
  provisionEach (seqZ 0 numMachines) configs [] w.

(** ** The installation plan *)

(** The fields of [ComponentsConfig] this file reads. *)
Record ComponentsConfig := {
  RootUserEmail : string;
  RootUserPassword : string;
  TargetName : string
}.

(** A Go map field is [None] while it is the nil map and [Some m] once it
    has been made; ranging over either visits the entries of [mapOf]. *)
Abbreviation optsMap := (option (gmap string (list value))).

Definition mapOf (m : optsMap) : gmap string (list value) := default ∅ m.

(** [TsuruInstallConfig].  The two embedded pointers are flattened: the
    [*dm.DockerMachineConfig] always points at the one object
    [dm.DefaultDockerMachineConfig], and the [*ComponentsConfig] is only
    ever replaced as a whole. *)
Record TsuruInstallConfig := {
  DockerMachineConfig : dm.DockerMachineConfig;
  ComponentsConfig_ : ComponentsConfig;
  CoreHosts : Z;
  CoreDriversOpts : optsMap;
  AppsHosts : Z;
  DedicatedAppsHosts : bool;
  AppsDriversOpts : optsMap
}.

(** Field assignments [installConfig.F = x]. *)
Definition setDockerMachineConfig (f : dm.DockerMachineConfig → dm.DockerMachineConfig)
    (c : TsuruInstallConfig) : TsuruInstallConfig :=
  {| DockerMachineConfig := f (DockerMachineConfig c);
     ComponentsConfig_ := ComponentsConfig_ c;
     CoreHosts := CoreHosts c; CoreDriversOpts := CoreDriversOpts c;
     AppsHosts := AppsHosts c; DedicatedAppsHosts := DedicatedAppsHosts c;
     AppsDriversOpts := AppsDriversOpts c |}.

Definition withDriverName (x : string) (d : dm.DockerMachineConfig) :=
  {| dm.cfgDriverName := x; dm.cfgDriverOpts := dm.cfgDriverOpts d;
     dm.cfgCAPath := dm.cfgCAPath d; dm.cfgName := dm.cfgName d;
     dm.cfgDockerHubMirror := dm.cfgDockerHubMirror d |}.

Definition withDriverOpts (x : DriverOpts) (d : dm.DockerMachineConfig) :=
  {| dm.cfgDriverName := dm.cfgDriverName d; dm.cfgDriverOpts := x;
     dm.cfgCAPath := dm.cfgCAPath d; dm.cfgName := dm.cfgName d;
     dm.cfgDockerHubMirror := dm.cfgDockerHubMirror d |}.

Definition withCAPath (x : string) (d : dm.DockerMachineConfig) :=
  {| dm.cfgDriverName := dm.cfgDriverName d; dm.cfgDriverOpts := dm.cfgDriverOpts d;
     dm.cfgCAPath := x; dm.cfgName := dm.cfgName d;
     dm.cfgDockerHubMirror := dm.cfgDockerHubMirror d |}.

Definition withName (x : string) (d : dm.DockerMachineConfig) :=
  {| dm.cfgDriverName := dm.cfgDriverName d; dm.cfgDriverOpts := dm.cfgDriverOpts d;
     dm.cfgCAPath := dm.cfgCAPath d; dm.cfgName := x;
     dm.cfgDockerHubMirror := dm.cfgDockerHubMirror d |}.

Definition withDockerHubMirror (x : string) (d : dm.DockerMachineConfig) :=
  {| dm.cfgDriverName := dm.cfgDriverName d; dm.cfgDriverOpts := dm.cfgDriverOpts d;
     dm.cfgCAPath := dm.cfgCAPath d; dm.cfgName := dm.cfgName d;
     dm.cfgDockerHubMirror := x |}.

Definition setComponentsConfig (x : ComponentsConfig) (c : TsuruInstallConfig) :=
  {| DockerMachineConfig := DockerMachineConfig c; ComponentsConfig_ := x;
     CoreHosts := CoreHosts c; CoreDriversOpts := CoreDriversOpts c;
     AppsHosts := AppsHosts c; DedicatedAppsHosts := DedicatedAppsHosts c;
     AppsDriversOpts := AppsDriversOpts c |}.

Definition setCoreHosts (x : Z) (c : TsuruInstallConfig) :=
  {| DockerMachineConfig := DockerMachineConfig c;
     ComponentsConfig_ := ComponentsConfig_ c;
     CoreHosts := x; CoreDriversOpts := CoreDriversOpts c;
     AppsHosts := AppsHosts c; DedicatedAppsHosts := DedicatedAppsHosts c;
     AppsDriversOpts := AppsDriversOpts c |}.

Definition setCoreDriversOpts (x : optsMap) (c : TsuruInstallConfig) :=
  {| DockerMachineConfig := DockerMachineConfig c;
     ComponentsConfig_ := ComponentsConfig_ c;
     CoreHosts := CoreHosts c; CoreDriversOpts := x;
     AppsHosts := AppsHosts c; DedicatedAppsHosts := DedicatedAppsHosts c;
     AppsDriversOpts := AppsDriversOpts c |}.

Definition setAppsHosts (x : Z) (c : TsuruInstallConfig) :=
  {| DockerMachineConfig := DockerMachineConfig c;
     ComponentsConfig_ := ComponentsConfig_ c;
     CoreHosts := CoreHosts c; CoreDriversOpts := CoreDriversOpts c;
     AppsHosts := x; DedicatedAppsHosts := DedicatedAppsHosts c;
     AppsDriversOpts := AppsDriversOpts c |}.

Definition setDedicatedAppsHosts (x : bool) (c : TsuruInstallConfig) :=
  {| DockerMachineConfig := DockerMachineConfig c;
     ComponentsConfig_ := ComponentsConfig_ c;
     CoreHosts := CoreHosts c; CoreDriversOpts := CoreDriversOpts c;
     AppsHosts := AppsHosts c; DedicatedAppsHosts := x;
     AppsDriversOpts := AppsDriversOpts c |}.

Definition setAppsDriversOpts (x : optsMap) (c : TsuruInstallConfig) :=
  {| DockerMachineConfig := DockerMachineConfig c;
     ComponentsConfig_ := ComponentsConfig_ c;
     CoreHosts := CoreHosts c; CoreDriversOpts := CoreDriversOpts c;
     AppsHosts := AppsHosts c; DedicatedAppsHosts := DedicatedAppsHosts c;
     AppsDriversOpts := x |}.

(** ** The configuration library ([github.com/tsuru/config]) *)

(** The loaded configuration, seen through the four getters the resolver
    uses.  Each answers with a value or an error. *)
Record ConfigData := {
  GetString : string → result string;
  GetInt : string → result Z;
  GetBool : string → result bool;
  Get : string → result value
}.

(** [v, _ := config.Get(key)]: the value, nil on error. *)
Definition getOrNil (cfg : ConfigData) (key : string) : value :=
  match Get cfg key with inl v => v | inr _ => VNil end.

(** ** A state-and-fault monad for code that updates the shared plan *)

Definition stateful (S A : Type) : Type := S → outcome A * S.

#[global] Instance stateful_ret {S} : MRet (stateful S) :=
  λ A a s, (Ok a, s).

#[global] Instance stateful_bind {S} : MBind (stateful S) :=
  λ A B f m s,
    match m s with
    | (Ok a, s') => f a s'
    | (Err e, s') => (Err e, s')
    | (Panic p, s') => (Panic p, s')
    end.

Definition modify {S} (f : S → S) : stateful S unit := λ s, (Ok tt, f s).
Definition getState {S} : stateful S S := λ s, (Ok s, s).
Definition failWith {S A} (e : string) : stateful S A := λ s, (Err e, s).
Definition panicWith {S A} (p : panic) : stateful S A := λ s, (Panic p, s).

(** [if err == nil { installConfig.F = x }] *)
Definition whenOk {S A} (r : result A) (f : A → S → S) : stateful S unit :=
  match r with
  | inl x => modify (f x)
  | inr _ => mret tt
  end.

(** ** The Config Resolver *)

Section Resolver.

(** Declared outside the modelled file and taken as given:
    the [dm] package's default machine configuration, the constructor of
    the component settings, the API port and its decimal rendering, the
    rendering of a value by [fmt]'s [%+v], and the reading of a
    configuration file (an error, or the configuration it loads). *)
Variable DefaultDockerMachineConfig : dm.DockerMachineConfig.
Variable NewInstallConfig : string → ComponentsConfig.
Variable defaultTsuruAPIPort : Z.
Variable strconv_Itoa : Z → string.
Variable fmtValue : value → string.
Variable ReadConfigFile : string → result ConfigData.

(** The initial contents of the package variable
    [defaultTsuruInstallConfig].  [AppsDriversOpts] is not set by the
    literal and so is the nil map. *)
Definition defaultTsuruInstallConfig : TsuruInstallConfig :=
  {| DockerMachineConfig := DefaultDockerMachineConfig;
     ComponentsConfig_ := NewInstallConfig (dm.cfgName DefaultDockerMachineConfig);
     CoreHosts := 1;
     AppsHosts := 1;
     DedicatedAppsHosts := false;
     CoreDriversOpts := Some ∅;
     AppsDriversOpts := None |}.

(** One round of the loop of [parseDriverOptsSlice]. *)
Definition parseDriverOpt (parsedOpts : gmap string (list value))
    (kv : value * value) : gmap string (list value) :=
  match kv.1 with
  | VStr k =>
      match kv.2 with
      | VSeq l => <[k:=l]> parsedOpts
      | v => <[k:=[v]]> parsedOpts
      end
  | _ => parsedOpts
  end.

(** Returns the pair [(map, error)] as Go does: the nil map with the
    error, the parsed map with none. *)
Definition parseDriverOptsSlice (opts : value) : optsMap * option string :=
  match opts with
  | VMap unparsed => (Some (foldl parseDriverOpt ∅ unparsed), None)
  | _ => (None, Some ("failed to parse opts: " +:+ fmtValue opts))
  end.

(** The loop over [driver:options]: string keys are kept. *)
Definition driverOptsOf (m : list (value * value)) : DriverOpts :=
  foldl (λ driverOpts kv,
           match kv.1 with
           | VStr k => <[k:=kv.2]> driverOpts
           | _ => driverOpts
           end) ∅ m.

(** [installConfig.F, err = parseDriverOptsSlice(opts); if err != nil
    { return nil, err }] *)
Definition assignParsed (set : optsMap → TsuruInstallConfig → TsuruInstallConfig)
    (opts : value) : stateful TsuruInstallConfig unit :=
  match opts with
  | VNil => mret tt
  | _ =>
      let '(parsed, err) := parseDriverOptsSlice opts in
      modify (set parsed);;
      match err with
      | Some e => failWith e
      | None => mret tt
      end
  end.

(** [parseConfigFile].  The state is the object the package variable
    [defaultTsuruInstallConfig] points to: [installConfig] is a copy of
    that pointer, so every assignment below is an assignment to the
    shared object, and the plan returned is that object. *)
Definition parseConfigFile (file : string)
    : stateful TsuruInstallConfig TsuruInstallConfig :=
  if decide (file = "") then getState
  else
    match ReadConfigFile file with
    | inr err => failWith err
    | inl cfg =>
        whenOk (GetString cfg "driver:name")
               (λ x, setDockerMachineConfig (withDriverName x));;
        whenOk (GetString cfg "name")
               (λ x, setDockerMachineConfig (withName x));;
        whenOk (GetString cfg "docker-hub-mirror")
               (λ x, setDockerMachineConfig (withDockerHubMirror x));;
        match getOrNil cfg "driver:options" with
        | VNil => mret tt
        | VMap m =>
            modify (setDockerMachineConfig (withDriverOpts (driverOptsOf m)))
        | _ => panicWith InterfaceConversion
        end;;
        whenOk (GetString cfg "ca-path")
               (λ x, setDockerMachineConfig (withCAPath x));;
        whenOk (GetInt cfg "hosts:core:size") setCoreHosts;;
        whenOk (GetInt cfg "hosts:apps:size") setAppsHosts;;
        whenOk (GetBool cfg "hosts:apps:dedicated") setDedicatedAppsHosts;;
        assignParsed setCoreDriversOpts (getOrNil cfg "hosts:core:driver:options");;
        assignParsed setAppsDriversOpts (getOrNil cfg "hosts:apps:driver:options");;
        installConfig ← getState;
        modify (setComponentsConfig
                  (NewInstallConfig (dm.cfgName (DockerMachineConfig installConfig))));;
        getState
    end.

(** [Install.Run], the statement after the provisioner is created:
    [config.CoreDriversOpts[config.DriverName+"-open-port"] =
    []interface{}{strconv.Itoa(defaultTsuruAPIPort)}], where [config]
    is the pointer [parseConfigFile] returned. *)
Definition Run_openPort : stateful TsuruInstallConfig unit :=
  λ config,
    match CoreDriversOpts config with
    | None => (Panic NilMapAssignment, config)
    | Some m =>
        (Ok tt,
         setCoreDriversOpts
           (Some (<[dm.cfgDriverName (DockerMachineConfig config) +:+ "-open-port"
                    := [VStr (strconv_Itoa defaultTsuruAPIPort)]]> m))
           config)
    end.

End Resolver.

(** ** [ProvisionPool] *)

(** [hosts[:n]] where [n <= len(hosts)] is already known: the slice
    expression faults on a negative bound. *)
Definition sliceTo {A} (hosts : list A) (n : Z) : outcome (list A) :=
  if decide (0 ≤ n) then Ok (take (Z.to_nat n) hosts)
  else Panic SliceBoundsOutOfRange.

Definition ProvisionPool `{dm.MachineProvisioner P}
    (config : TsuruInstallConfig) (hosts : list Machine) (w : logged P)
    : outcome (list Machine) * logged P :=
  if DedicatedAppsHosts config then
    ProvisionMachines (AppsHosts config) (mapOf (AppsDriversOpts config)) w
  else if decide (AppsHosts config > Z.of_nat (length hosts)) then
    match ProvisionMachines (AppsHosts config - Z.of_nat (length hosts))
                            (mapOf (AppsDriversOpts config)) w with
    | (Ok poolMachines, w') => (Ok (poolMachines ++ hosts), w')
    | (Err err, w') => (Err ("failed to provision pool hosts: " +:+ err), w')
    | (Panic p, w') => (Panic p, w')
    end
  else (sliceTo hosts (AppsHosts config), w).

(** ** The component loop of [Install.Run] *)

Definition nl : string := String (Ascii.ascii_of_nat 10) EmptyString.

Record ServiceInfo := { Ports : list string; Replicas : Z }.

(** [TsuruComponent], over an explicit cluster state [C]. *)
Record TsuruComponent (C : Type) := {
  Name : string;
  Install : C → ComponentsConfig → option string * C;
  Status : C → result ServiceInfo * C
}.
Arguments Name {C} _.
Arguments Install {C} _ _ _.
Arguments Status {C} _ _.

(** The calls made on components, with the settings passed and the error
    returned. *)
Inductive componentCall :=
  | CallInstall (name : string) (cfg : ComponentsConfig) (err : option string)
  | CallStatus (name : string).

Record installRun (C : Type) := {
  cluster : C;
  stdout : list string;
  componentCalls : list componentCall
}.
Arguments cluster {C} _.
Arguments stdout {C} _.
Arguments componentCalls {C} _.

Definition Fprintf {C} (msg : string) (st : installRun C) : installRun C :=
  {| cluster := cluster st; stdout := stdout st ++ [msg];
     componentCalls := componentCalls st |}.

Definition callInstall {C} (component : TsuruComponent C)
    (cfg : ComponentsConfig) (st : installRun C) : option string * installRun C :=
  let '(err, cl') := Install component (cluster st) cfg in
  (err, {| cluster := cl'; stdout := stdout st;
           componentCalls :=
             componentCalls st ++ [CallInstall (Name component) cfg err] |}).

(** [for _, component := range TsuruComponents { ... }]; the catalog is a
    parameter.  Returns the error [Run] returns from inside the loop, or
    [None] when the loop runs to its end. *)
Fixpoint Run_installComponents {C} (components : list (TsuruComponent C))
    (cfg : ComponentsConfig) (st : installRun C) : option string * installRun C :=
  match components with
  | [] => (None, st)
  | component :: rest =>
      let st := Fprintf ("Installing " +:+ Name component +:+ nl) st in
      let '(errInstall, st) := callInstall component cfg st in
      match errInstall with
      | Some e =>
          (Some ("error installing " +:+ Name component +:+ ": " +:+ e), st)
      | None =>
          Run_installComponents rest cfg
            (Fprintf (Name component +:+ " successfully installed!" +:+ nl) st)
      end
  end.

(** ** The Host Registrar *)

(** A request as [addInstallHosts] builds it.  [reqForm] holds the
    [url.Values] whose encoding is the body. *)
Record request := {
  reqMethod : string;
  reqURL : string;
  reqForm : gmap string string;
  reqHeader : gmap string string
}.

Class Client (K : Type) := Do : request → K → result unit * K.

Record registrar (K : Type) := {
  client : K;
  printed : list string;
  sent : list request
}.
Arguments client {K} _.
Arguments printed {K} _.
Arguments sent {K} _.

Section HostRegistrar.

(** The collaborators of [addInstallHosts]: the versioned URL, the JSON
    encoder, the local files (the bytes read and the error, if any),
    path joining, and the URL check of [http.NewRequest]. *)
Variable GetURLVersion : string → string → result string.
Variable json_Marshal : value → result string.
Variable ReadFile : string → string * option string.
Variable filepath_Join : string → string → string.
Variable url_Parse : string → option string.

Context `{Client K}.

Definition Printf (msg : string) (st : registrar K) : registrar K :=
  {| client := client st; printed := printed st ++ [msg]; sent := sent st |}.

(** [data, err := ioutil.ReadFile(p); if err != nil { fmt.Printf(...) }] *)
Definition readOrWarn (p warning : string) (st : registrar K)
    : string * registrar K :=
  let '(data, err) := ReadFile p in
  (data, match err with
         | Some e => Printf (warning +:+ e) st
         | None => st
         end).

Definition http_NewRequest (method url : string) (body : gmap string string)
    : result request :=
  match url_Parse url with
  | Some err => inr err
  | None => inl {| reqMethod := method; reqURL := url; reqForm := body;
                   reqHeader := ∅ |}
  end.

Definition Header_Set (k v : string) (r : request) : request :=
  {| reqMethod := reqMethod r; reqURL := reqURL r; reqForm := reqForm r;
     reqHeader := <[k:=v]> (reqHeader r) |}.

Definition callDo (r : request) (st : registrar K) : result unit * registrar K :=
  let '(resp, k') := Do r (client st) in
  (resp, {| client := k'; printed := printed st; sent := sent st ++ [r] |}).

(** The form [addInstallHosts] fills for one machine. *)
Definition hostForm (m : Machine) (rawDriver privateKey caCert caPrivateKey : string)
    : gmap string string :=
  <["caPrivateKey":=caPrivateKey]>
    (<["caCert":=caCert]>
       (<["sshPrivateKey":=privateKey]>
          (<["driverName":=dm.DriverName m]>
             (<["name":=dm.Name m]>
                (<["driver":=rawDriver]> ∅))))).

(** The body of the loop of [addInstallHosts] for one machine: the
    error it returns with, if any. *)
Definition addInstallHost (path : string) (m : Machine) (st : registrar K)
    : option string * registrar K :=
  match json_Marshal (dm.Driver m) with
  | inr err => (Some err, st)
  | inl rawDriver =>
      let '(privateKey, st) :=
        readOrWarn (dm.SSHKeyPath m) "failed to read private ssh key file: " st in
      let '(caCert, st) :=
        readOrWarn (filepath_Join (dm.CAPath m) "ca.pem")
                   "failed to read ca file: " st in
      let '(caPrivateKey, st) :=
        readOrWarn (filepath_Join (dm.CAPath m) "ca-key.pem")
                   "failed to read ca private key file: " st in
      let v := hostForm m rawDriver privateKey caCert caPrivateKey in
      match http_NewRequest "POST" path v with
      | inr err => (Some err, st)
      | inl request =>
          let request :=
            Header_Set "Content-Type" "application/x-www-form-urlencoded" request in
          match callDo request st with
          | (inr err, st) => (Some err, st)
          | (inl _, st) => (None, st)
          end
      end
  end.

Fixpoint addInstallHostsFrom (path : string) (machines : list Machine)
    (st : registrar K) : option string * registrar K :=
  match machines with
  | [] => (None, st)
  | m :: rest =>
      match addInstallHost path m st with
      | (Some err, st) => (Some err, st)
      | (None, st) => addInstallHostsFrom path rest st
      end
  end.

Definition addInstallHosts (machines : list Machine) (st : registrar K)
    : option string * registrar K :=
  match GetURLVersion "1.3" "/install/hosts" with
  | inr err => (Some err, st)
  | inl path => addInstallHostsFrom path machines st
  end.

(** [Install.Run], the end: [machineIndex[m.Name] = m] for every machine
    of [append(coreMachines, appsMachines...)]. *)
Definition Run_machineIndex (coreMachines appsMachines : list Machine)
    : gmap string Machine :=
  foldl (λ machineIndex m, <[dm.Name m:=m]> machineIndex) ∅
        (coreMachines ++ appsMachines).

(** [for _, v := range machineIndex { uniqueMachines = append(...) }]
    visits the index in an order Go does not fix: [uniqueMachines] may
    be any list that [rangeOf] accepts; [Run_uniqueMachines] is one. *)
Definition rangeOf (machineIndex : gmap string Machine)
    (uniqueMachines : list Machine) : Prop :=
  uniqueMachines ≡ₚ (map_to_list machineIndex).*2.

Definition Run_uniqueMachines (coreMachines appsMachines : list Machine)
    : list Machine :=
  (map_to_list (Run_machineIndex coreMachines appsMachines)).*2.

Definition Run_registerHosts (uniqueMachines : list Machine) (st : registrar K)
    : option string * registrar K :=
  match addInstallHosts uniqueMachines st with
  | (Some err, st) => (Some ("failed to register hosts: " +:+ err), st)
  | (None, st) => (None, st)
  end.

End HostRegistrar.

(** ** The overview tables of [Install.Run] *)

(** [cmd.Table], as far as this file fills it. *)
Record Table := {
  Headers : list string;
  LineSeparator : bool;
  Rows : list (list string)
}.

Definition NewTable : Table :=
  {| Headers := []; LineSeparator := false; Rows := [] |}.

Definition AddRow (row : list string) (t : Table) : Table :=
  {| Headers := Headers t; LineSeparator := LineSeparator t;
     Rows := Rows t ++ [row] |}.

Record NodeInfo := { IP : string; State : string; Manager : bool }.

(** The part of [ServiceCluster] the tables use: the member list and the
    error, both as returned. *)
Class ServiceCluster (C : Type) :=
  ClusterInfo : C → (list NodeInfo * option string) * C.

Definition strconv_FormatBool (b : bool) : string :=
  if b then "true" else "false".

(** [buildClusterTable] *)
Definition buildClusterTable `{ServiceCluster C} (cluster : C) : Table * C :=
  let t := {| Headers := ["IP"; "State"; "Manager"]; LineSeparator := true;
              Rows := [] |} in
  let '((nodes, err), cluster) := ClusterInfo cluster in
  let t := match err with
           | Some e => AddRow ["failed to retrieve cluster info: " +:+ e] t
           | None => t
           end in
  (foldl (λ t n, AddRow [IP n; State n; strconv_FormatBool (Manager n)] t) t nodes,
   cluster).

Definition callStatus {C} (component : TsuruComponent C)
    (w : C * list componentCall) : result ServiceInfo * (C * list componentCall) :=
  let '(r, cl') := Status component w.1 in
  (r, (cl', w.2 ++ [CallStatus (Name component)])).

(** [buildComponentsTable]; [strconv.Itoa] is taken as given. *)
Fixpoint componentRows {C} (Itoa : Z → string)
    (components : list (TsuruComponent C)) (t : Table)
    (w : C * list componentCall) : Table * (C * list componentCall) :=
  match components with
  | [] => (t, w)
  | component :: rest =>
      match callStatus component w with
      | (inr err, w) =>
          componentRows Itoa rest (AddRow [Name component; "?"; err] t) w
      | (inl info, w) =>
          let row := [Name component; String.concat "," (Ports info);
                      Itoa (Replicas info)] in
          componentRows Itoa rest (AddRow row t) w
      end
  end.

Definition buildComponentsTable {C} (Itoa : Z → string)
    (components : list (TsuruComponent C)) (w : C * list componentCall)
    : Table * (C * list componentCall) :=
  componentRows Itoa components
    {| Headers := ["Component"; "Ports"; "Replicas"]; LineSeparator := true;
       Rows := [] |} w.

(** ** The firewall workaround of [Install.Run] *)

Class SSHRunner (R : Type) :=
  RunSSHCommand : Machine → string → R → result string * R.

Record fixupRun (R : Type) := {
  remote : R;
  stderr : list string;
  sshCalls : list (Machine * string * result string)
}.
Arguments remote {R} _.
Arguments stderr {R} _.
Arguments sshCalls {R} _.

Definition dropGwbridgeToDocker0 : string :=
  "PATH=$PATH:/usr/sbin/:/usr/local/sbin; sudo iptables -D DOCKER-ISOLATION -i docker_gwbridge -o docker0 -j DROP".

Definition dropDocker0ToGwbridge : string :=
  "PATH=$PATH:/usr/sbin/:/usr/local/sbin; sudo iptables -D DOCKER-ISOLATION -i docker0 -o docker_gwbridge -j DROP".

Definition iptablesWarning (e : string) : string :=
  "Failed to apply iptables rule: " +:+ e +:+ ". Maybe it is not needed anymore?" +:+ nl.

(** [_, err = m.RunSSHCommand(c); if err != nil { fmt.Fprintf(context.Stderr, ...) }] *)
Definition runOrWarn `{SSHRunner R} (m : Machine) (c : string) (st : fixupRun R)
    : fixupRun R :=
  let '(r, remote') := RunSSHCommand m c (remote st) in
  {| remote := remote';
     stderr := match r with
               | inr e => stderr st ++ [iptablesWarning e]
               | inl _ => stderr st
               end;
     sshCalls := sshCalls st ++ [(m, c, r)] |}.

(** [for _, m := range coreMachines { ... }] after the API bootstrap. *)
Definition Run_iptablesWorkaround `{SSHRunner R} (coreMachines : list Machine)
    (st : fixupRun R) : fixupRun R :=
  foldl (λ st m, runOrWarn m dropDocker0ToGwbridge
                   (runOrWarn m dropGwbridgeToDocker0 st))
        st coreMachines.

(** ** [Uninstall.Run] *)

Record uninstallRun (P : Type) := {
  shared : TsuruInstallConfig;      (* the package's default plan *)
  dockerMachine : option (logged P); (* the docker machine, once created *)
  apiCalls : list string;           (* names passed to [api.Uninstall] *)
  uStdout : list string;
  uStderr : list string
}.
Arguments shared {P} _.
Arguments dockerMachine {P} _.
Arguments apiCalls {P} _.
Arguments uStdout {P} _.
Arguments uStderr {P} _.

Definition callDeleteAll `{dm.MachineProvisioner P} (w : logged P)
    : option string * logged P :=
  let '(err, p') := dm.DeleteAll w.1 in (err, (p', w.2 ++ [dm.CallDeleteAll])).

Definition callClose `{dm.MachineProvisioner P} (w : logged P) : logged P :=
  (dm.Close w.1, w.2 ++ [dm.CallClose]).

Section Uninstall.

(** Taken as given, besides the collaborators of the resolver: the
    creation of the docker machine and the uninstall call of the API
    component. *)
Variable NewInstallConfig : string → ComponentsConfig.
Variable fmtValue : value → string.
Variable ReadConfigFile : string → result ConfigData.
Context `{dm.MachineProvisioner P}.
Variable NewDockerMachine : dm.DockerMachineConfig → result P.
Variable api_Uninstall : string → option string.

(** [Uninstall.Run].  [defer d.Close()] runs on every return that follows
    the creation of the machine. *)
Definition Uninstall_Run (file : string) (st : uninstallRun P)
    : outcome unit * uninstallRun P :=
  match parseConfigFile NewInstallConfig fmtValue ReadConfigFile file (shared st) with
  | (Panic p, g) =>
      (Panic p,
       {| shared := g; dockerMachine := dockerMachine st; apiCalls := apiCalls st;
          uStdout := uStdout st; uStderr := uStderr st |})
  | (Err err, g) =>
      (Err err,
       {| shared := g; dockerMachine := dockerMachine st; apiCalls := apiCalls st;
          uStdout := uStdout st;
          uStderr := uStderr st
                     ++ ["Failed to read configuration file: " +:+ err +:+ nl] |})
  | (Ok config, g) =>
      match NewDockerMachine (DockerMachineConfig config) with
      | inr err =>
          (Err err,
           {| shared := g; dockerMachine := dockerMachine st; apiCalls := apiCalls st;
              uStdout := uStdout st;
              uStderr := uStderr st ++ ["Failed to delete machine: " +:+ err +:+ nl] |})
      | inl d =>
          match callDeleteAll (d, []) with
          | (Some err, d) =>
              (Err err,
               {| shared := g; dockerMachine := Some (callClose d);
                  apiCalls := apiCalls st; uStdout := uStdout st;
                  uStderr := uStderr st
                             ++ ["Failed to delete machines: " +:+ err +:+ nl] |})
          | (None, d) =>
              let out := uStdout st ++ ["Machines successfully removed!" +:+ nl] in
              let name := dm.cfgName (DockerMachineConfig config) in
              match api_Uninstall name with
              | Some err =>
                  (Err err,
                   {| shared := g; dockerMachine := Some (callClose d);
                      apiCalls := apiCalls st ++ [name]; uStdout := out;
                      uStderr := uStderr st
                                 ++ ["Failed to uninstall tsuru API: " +:+ err +:+ nl] |})
              | None =>
                  (Ok tt,
                   {| shared := g; dockerMachine := Some (callClose d);
                      apiCalls := apiCalls st ++ [name];
                      uStdout := out ++ ["Uninstall finished successfully!" +:+ nl];
                      uStderr := uStderr st |})
              end
          end
      end
  end.

End Uninstall.


(** ** Test doubles

    In-memory stand-ins for the collaborators, used to run the
    definitions above on concrete inputs. *)

Module Fake.

Definition machine (name : string) (driver : value) : Machine :=
  {| dm.Name := name; dm.DriverName := "fake"; dm.Driver := driver;
     dm.CAPath := "/ca"; dm.SSHKeyPath := "/ssh/" +:+ name;
     dm.PrivateAddress := name +:+ ".internal" |}.

(** A provisioner that hands out scripted answers, one per call. *)
#[global] Instance scripted : dm.MachineProvisioner (list (result Machine)) := {|
  dm.ProvisionMachine := λ _ s,
    match s with
    | r :: rest => (r, rest)
    | [] => (inr "no machine left", [])
    end;
  dm.DeleteAll := λ s, (None, s);
  dm.Close := λ s, s
|}.

(** A client that accepts every request and counts them. *)
#[global] Instance counting : Client nat := λ _ n, (inl tt, S n).

(** A component that fails with [err] when told to, and records its
    name in the cluster state (a list of installed names). *)
Definition component (name : string) (err : option string)
    : TsuruComponent (list string) :=
  {| Name := name;
     Install := λ cl _, (err, match err with None => cl ++ [name] | Some _ => cl end);
     Status := λ cl, (inl {| Ports := []; Replicas := 1 |}, cl) |}.

(** A configuration held as a nested document; a key is a path whose
    segments are separated by colons. *)
Fixpoint splitKey (s : string) : list string :=
  match s with
  | EmptyString => [EmptyString]
  | String c rest =>
      if Ascii.eqb c ":"%char then EmptyString :: splitKey rest
      else
        match splitKey rest with
        | seg :: segs => String c seg :: segs
        | [] => [String c EmptyString]
        end
  end.

Definition isKey (k : string) (kv : value * value) : bool :=
  match kv.1 with
  | VStr s => String.eqb s k
  | _ => false
  end.

Fixpoint lookupPath (path : list string) (doc : value) : option value :=
  match path with
  | [] => Some doc
  | k :: rest =>
      match doc with
      | VMap m =>
          match find (isKey k) m with
          | Some kv => lookupPath rest kv.2
          | None => None
          end
      | _ => None
      end
  end.

Definition fromDocument (doc : value) : ConfigData :=
  let get key := lookupPath (splitKey key) doc in
  {| Get := λ key,
       match get key with Some v => inl v | None => inr ("key not found: " +:+ key) end;
     GetString := λ key,
       match get key with Some (VStr s) => inl s | _ => inr ("no string at: " +:+ key) end;
     GetInt := λ key,
       match get key with Some (VInt n) => inl n | _ => inr ("no int at: " +:+ key) end;
     GetBool := λ key,
       match get key with Some (VBool b) => inl b | _ => inr ("no bool at: " +:+ key) end |}.

(** Files known to the fake file system. *)
Definition readConfigFile (files : list (string * value)) (path : string)
    : result ConfigData :=
  match find (λ f, String.eqb f.1 path) files with
  | Some f => inl (fromDocument f.2)
  | None => inr ("open " +:+ path +:+ ": no such file or directory")
  end.

Definition dmConfig : dm.DockerMachineConfig :=
  {| dm.cfgDriverName := "virtualbox"; dm.cfgDriverOpts := ∅;
     dm.cfgCAPath := ""; dm.cfgName := "tsuru"; dm.cfgDockerHubMirror := "" |}.

Definition newInstallConfig (targetName : string) : ComponentsConfig :=
  {| RootUserEmail := "admin@example.com"; RootUserPassword := "admin123";
     TargetName := targetName |}.

(** The document [hosts: {core: {size: 3}}]. *)
Definition coreSize3 : value :=
  VMap [(VStr "hosts", VMap [(VStr "core", VMap [(VStr "size", VInt 3)])])].


Definition fmtValue (v : value) : string := "<value>".

Definition defaultPlan : TsuruInstallConfig :=
  defaultTsuruInstallConfig dmConfig newInstallConfig.

(** The resolver over a file system that holds [doc] as [install.yml]. *)
Definition resolve (doc : value) (file : string)
    : stateful TsuruInstallConfig TsuruInstallConfig :=
  parseConfigFile newInstallConfig fmtValue
                  (readConfigFile [("install.yml", doc)]) file.

(** Option lists and machines for the examples. *)
Definition zones : gmap string (list value) :=
  {[ "zone" := [VStr "a"; VStr "b"] ]}.

Definition noZone : gmap string (list value) := {[ "zone" := [] ]}.

Definition m0 : Machine := machine "m0" (VStr "d0").
Definition m1 : Machine := machine "m1" (VStr "d1").
Definition m2 : Machine := machine "m2" (VStr "d2").
Definition c0 : Machine := machine "core0" (VStr "c0").
Definition c1 : Machine := machine "core1" (VStr "c1").
Definition c2 : Machine := machine "core2" (VStr "c2").


(** Collaborators of the host registrar. *)
Definition getURLVersion (version path : string) : result string :=
  inl ("http://tsuru.example/" +:+ version +:+ path).

Definition jsonMarshal (v : value) : result string :=
  match v with
  | VStr s => inl s
  | _ => inl "null"
  end.

Definition readFile (path : string) : string * option string :=
  ("", Some ("open " +:+ path +:+ ": no such file or directory")).

Definition filepathJoin (dir file : string) : string := dir +:+ "/" +:+ file.

Definition urlParse (url : string) : option string := None.

Definition registerAll (coreMachines appsMachines : list Machine)
    : option string * registrar nat :=
  Run_registerHosts getURLVersion jsonMarshal readFile filepathJoin urlParse
    (Run_uniqueMachines coreMachines appsMachines)
    {| client := O; printed := []; sent := [] |}.

(** Two machines named [twin] with different descriptors. *)
Definition twinOld : Machine := machine "twin" (VStr "old").
Definition twinNew : Machine := machine "twin" (VStr "new").

(** A mapping of per-index options: a sequence, a scalar and a key that
    is not a string. *)
Definition optionEntries : list (value * value) :=
  [(VStr "zone", VSeq [VStr "a"; VStr "b"]);
   (VStr "size", VStr "big");
   (VInt 7, VStr "ignored")].

(** The documents [driver: {options: 5}],
    [hosts: {core: {driver: {options: x}}}] and
    [name: prod, hosts: {core: {size: 3}}]. *)
Definition driverOptionsScalar : value :=
  VMap [(VStr "driver", VMap [(VStr "options", VInt 5)])].

Definition coreOptionsScalar : value :=
  VMap [(VStr "hosts",
         VMap [(VStr "core",
                VMap [(VStr "driver", VMap [(VStr "options", VStr "x")])])])].

Definition prodDocument : value :=
  VMap [(VStr "name", VStr "prod");
        (VStr "hosts", VMap [(VStr "core", VMap [(VStr "size", VInt 3)])])].

(** Collaborators of [Uninstall.Run]: a machine with nothing scripted, an
    API that uninstalls without error. *)
Definition newDockerMachine (cfg : dm.DockerMachineConfig)
    : result (list (result Machine)) :=
  inl [].

Definition apiUninstall (name : string) : option string := None.

Definition uninstallFrom (doc : value) (file : string)
    : outcome unit * uninstallRun (list (result Machine)) :=
  Uninstall_Run newInstallConfig fmtValue (readConfigFile [("install.yml", doc)])
                newDockerMachine apiUninstall file
                {| shared := defaultPlan; dockerMachine := None; apiCalls := [];
                   uStdout := []; uStderr := [] |}.


End Fake.

(** ** Vocabulary of the statements *)

(** The value picked for index [i] from one option's candidates. *)
Definition pick (i : Z) (v : list value) : option value :=
  v !! Z.to_nat (i `mod` Z.of_nat (length v)).

(** The option set of machine [i]: every key of [configs], with the value
    picked from its candidates. *)
Definition optionSet (i : Z) (configs : gmap string (list value)) : DriverOpts :=
  omap (pick i) configs.

(** The invariant of the plan: every option has at least one candidate. *)
Definition nonEmptyLists (configs : gmap string (list value)) : Prop :=
  map_Forall (λ _ v, v ≠ []) configs.

(** A run of provisioner calls: the options passed and the answer, call
    by call. *)
Definition callsOf (steps : list (DriverOpts * result Machine)) : list dm.call :=
  (λ s, dm.CallProvision s.1 s.2) <$> steps.

(** [answers p steps p']: started in state [p] and called with the options
    of [steps] in turn, the provisioner gives the answers of [steps] and
    ends in state [p']. *)
Fixpoint answers `{dm.MachineProvisioner P} (p : P)
    (steps : list (DriverOpts * result Machine)) (p' : P) : Prop :=
  match steps with
  | [] => p' = p
  | s :: rest =>
      ∃ p1, dm.ProvisionMachine s.1 p = (s.2, p1) ∧ answers p1 rest p'
  end.

(** The provisioner can bring up [n] more machines, whatever the options. *)
Fixpoint succeeds `{dm.MachineProvisioner P} (n : nat) (p : P) : Prop :=
  match n with
  | O => True
  | S n' =>
      ∀ opts, ∃ m p', dm.ProvisionMachine opts p = (inl m, p') ∧ succeeds n' p'
  end.

(** What [ProvisionMachines] may return after the calls [steps], when
    asked for [n] machines on top of [machines]. *)
Definition returnsAfter (n : nat) (machines : list Machine)
    (steps : list (DriverOpts * result Machine))
    (r : outcome (list Machine)) : Prop :=
  match r with
  | Ok ms =>
      ∃ fresh, ms = machines ++ fresh ∧ steps.*2 = inl <$> fresh ∧
               length fresh = n
  | Err e =>
      ∃ fresh cause, steps.*2 = (inl <$> fresh) ++ [inr cause] ∧
                     (length fresh < n)%nat ∧
                     e = "failed to provision machines: " +:+ cause
  | Panic _ => False
  end.

(** The installs made, component by component, with the error each
    returned. *)
Definition installCallsOf {C} (cfg : ComponentsConfig)
    (installs : list (TsuruComponent C * option string)) : list componentCall :=
  (λ d, CallInstall (Name d.1) cfg d.2) <$> installs.

(** [installed cl cfg installs cl']: started on cluster state [cl], the
    installs of [installs] in turn return the recorded errors and leave
    the cluster in state [cl']. *)
Fixpoint installed {C} (cl : C) (cfg : ComponentsConfig)
    (installs : list (TsuruComponent C * option string)) (cl' : C) : Prop :=
  match installs with
  | [] => cl' = cl
  | d :: rest =>
      ∃ cl1, Install d.1 cl cfg = (d.2, cl1) ∧ installed cl1 cfg rest cl'
  end.

Definition succeeded {C} (components : list (TsuruComponent C))
    : list (TsuruComponent C * option string) :=
  (λ c, (c, None)) <$> components.

(** The last machine of a list that bears a given name. *)
Definition lastNamed (name : string) (machines : list Machine) : option Machine :=
  last (filter (λ m, dm.Name m = name) machines).

(** The request [addInstallHosts] builds for a machine, when its driver
    descriptor can be serialized. *)
Definition registration (json_Marshal : value → result string)
    (ReadFile : string → string * option string)
    (filepath_Join : string → string → string)
    (path : string) (m : Machine) : option request :=
  match json_Marshal (dm.Driver m) with
  | inr _ => None
  | inl rawDriver =>
      Some {| reqMethod := "POST";
              reqURL := path;
              reqForm :=
                <["caPrivateKey":=(ReadFile (filepath_Join (dm.CAPath m) "ca-key.pem")).1]>
                  (<["caCert":=(ReadFile (filepath_Join (dm.CAPath m) "ca.pem")).1]>
                     (<["sshPrivateKey":=(ReadFile (dm.SSHKeyPath m)).1]>
                        (<["driverName":=dm.DriverName m]>
                           (<["name":=dm.Name m]>
                              (<["driver":=rawDriver]> ∅)))));
              reqHeader :=
                {[ "Content-Type" := "application/x-www-form-urlencoded" ]} |}
  end.

(** The keys the resolver asks the configuration for. *)
Definition recognizedKeys : list string :=
  ["driver:name"; "name"; "docker-hub-mirror"; "driver:options"; "ca-path";
   "hosts:core:size"; "hosts:apps:size"; "hosts:apps:dedicated";
   "hosts:core:driver:options"; "hosts:apps:driver:options"].

Definition isErr {A} (r : result A) : bool :=
  match r with inr _ => true | inl _ => false end.

(** The configuration has nothing under [key]: every getter fails on it. *)
Definition absent (cfg : ConfigData) (key : string) : bool :=
  isErr (GetString cfg key) && isErr (GetInt cfg key) &&
  isErr (GetBool cfg key) && isErr (Get cfg key).

(** A configuration that, of all recognized keys, holds only
    [hosts:core:size], with the integer [n]. *)
Definition onlyCoreSize (cfg : ConfigData) (n : Z) : Prop :=
  GetInt cfg "hosts:core:size" = inl n ∧
  ∀ key, key ∈ recognizedKeys → key ≠ "hosts:core:size" → absent cfg key = true.

(** The candidate list an option value stands for: a sequence as it is, a
    scalar as a list of one. *)
Definition candidatesOf (v : value) : list value :=
  match v with
  | VSeq l => l
  | _ => [v]
  end.

(** Statements about stateful code: [preserves P m] — a run of [m] from a
    state with [P] ends in a state with [P], whatever it returns;
    [establishes Q m] — every run of [m] ends in a state with [Q];
    [onSuccess Q m] — every run of [m] that returns a value ends in a
    state with [Q]; [returnsState m] — the value [m] returns is the state
    it ends in. *)
Definition preserves {S A} (P : S → Prop) (m : stateful S A) : Prop :=
  ∀ s, P s → P (m s).2.

Definition establishes {S A} (Q : S → Prop) (m : stateful S A) : Prop :=
  ∀ s, Q (m s).2.

Definition onSuccess {S A} (Q : S → Prop) (m : stateful S A) : Prop :=
  ∀ s a, (m s).1 = Ok a → Q (m s).2.

Definition returnsState {S} (m : stateful S S) : Prop :=
  ∀ s a, (m s).1 = Ok a → a = (m s).2.

(** An options value that is present and is not a mapping. *)
Definition notMapping (v : value) : Prop :=
  match v with
  | VNil | VMap _ => False
  | _ => True
  end.

Definition mappingOrNil (v : value) : Prop :=
  match v with
  | VNil | VMap _ => True
  | _ => False
  end.

(** [submitted k steps k']: started in state [k] and given the requests of
    [steps] in turn, the client gives the answers of [steps] and ends in
    state [k']. *)
Fixpoint submitted `{Client K} (k : K) (steps : list (request * result unit))
    (k' : K) : Prop :=
  match steps with
  | [] => k' = k
  | s :: rest => ∃ k1, Do s.1 k = (s.2, k1) ∧ submitted k1 rest k'
  end.

Definition accepted (s : request * result unit) : Prop := s.2 = inl tt.

(** What the component loop prints for the installs it made. *)
Definition progressOf {C} (installs : list (TsuruComponent C * option string))
    : list string :=
  installs ≫= λ d,
    ("Installing " +:+ Name d.1 +:+ nl)
    :: match d.2 with
       | None => [Name d.1 +:+ " successfully installed!" +:+ nl]
       | Some _ => []
       end.

(** The two commands of the firewall workaround, for one machine. *)
Definition workaroundFor (m : Machine) : list (Machine * string) :=
  [(m, dropGwbridgeToDocker0); (m, dropDocker0ToGwbridge)].

(** The warning printed for a command, if it failed. *)
Definition warningOf (c : Machine * string * result string) : option string :=
  match c.2 with
  | inr e => Some (iptablesWarning e)
  | inl _ => None
  end.

(** The row of the members table for one member. *)
Definition nodeRow (n : NodeInfo) : list string :=
  [IP n; State n; strconv_FormatBool (Manager n)].

(** The files of [ReadFile], read without any error reported. *)
Definition quietly (ReadFile : string → string * option string) (p : string)
    : string * option string :=
  ((ReadFile p).1, None).

(** * Properties *)

(** ** Option selection *)

Lemma index_rem {A} (v : list A) (i : Z) :
  0 ≤ i → v ≠ [] →
  index v (Z.rem i (Z.of_nat (length v)))
  = v !! Z.to_nat (i `mod` Z.of_nat (length v)).
Proof.
  intros Hi Hv.
  assert (0 < Z.of_nat (length v)) as Hlen by (destruct v; [done | simpl; lia]).
  rewrite Z.rem_mod_nonneg by lia.
  unfold index. rewrite decide_True; [done |].
  apply Z.mod_pos_bound. lia.
Qed.

Lemma pick_is_Some (i : Z) (v : list value) :
  0 ≤ i → v ≠ [] → is_Some (pick i v).
Proof.
  intros Hi Hv. unfold pick. apply lookup_lt_is_Some.
  assert (0 < Z.of_nat (length v)) as Hlen by (destruct v; [done | simpl; lia]).
  pose proof (Z.mod_pos_bound i _ Hlen). lia.
Qed.

(** Whatever the order of the entries, the inner loop ends with the
    picked value under every key of the entries, and leaves the other
    keys as they were. *)
Lemma selectOptsIn_ok (i : Z) (entries : list (string * list value))
    (opts : DriverOpts) :
  0 ≤ i → NoDup entries.*1 → Forall (λ kv, kv.2 ≠ []) entries →
  ∃ opts', selectOptsIn i entries opts = Ok opts' ∧
    ∀ k, opts' !! k =
         match (list_to_map entries : gmap string (list value)) !! k with
         | Some v => pick i v
         | None => opts !! k
         end.
Proof.
  intros Hi. revert opts.
  induction entries as [|[k v] rest IH]; intros opts Hnd Hne.
  - exists opts. split; [done |]. intros k. simpl. by rewrite lookup_empty.
  - apply NoDup_cons in Hnd as [Hk Hnd].
    apply Forall_cons in Hne as [Hv Hne]. simpl in Hv.
    simpl. rewrite decide_False by (destruct v; [done | simpl; lia]).
    rewrite index_rem by done.
    destruct (pick_is_Some i v Hi Hv) as [x Hx].
    unfold pick in Hx. rewrite Hx.
    destruct (IH (<[k:=x]> opts) Hnd Hne) as (opts' & Hrun & Hlook).
    exists opts'. split; [done |]. intros k'. rewrite Hlook.
    destruct (decide (k = k')) as [<- | Hkk'].
    + rewrite lookup_insert_eq.
      rewrite (not_elem_of_list_to_map_1 (M := gmap string)) by done.
      by rewrite lookup_insert_eq.
    + by rewrite !lookup_insert_ne.
Qed.

(** An empty candidate list anywhere makes the inner loop fault with a
    division by zero, whatever the order of the entries. *)
Lemma selectOptsIn_empty (i : Z) (entries : list (string * list value))
    (opts : DriverOpts) :
  0 ≤ i → Exists (λ kv, kv.2 = []) entries →
  selectOptsIn i entries opts = Panic DivideByZero.
Proof.
  intros Hi. revert opts.
  induction entries as [|[k v] rest IH]; intros opts Hex.
  - by apply Exists_nil in Hex.
  - simpl. destruct (decide (v = [])) as [-> | Hv]; [done |].
    rewrite decide_False by (destruct v; [done | simpl; lia]).
    rewrite index_rem by done.
    destruct (pick_is_Some i v Hi Hv) as [x Hx].
    unfold pick in Hx. rewrite Hx.
    apply IH. apply Exists_cons in Hex as [Hhd | Htl]; [done | done].
Qed.

(** With non-empty candidate lists the inner loop builds [optionSet]. *)
Lemma selectOptsIn_optionSet (i : Z) (configs : gmap string (list value))
    (entries : list (string * list value)) :
  0 ≤ i → nonEmptyLists configs → entries ≡ₚ map_to_list configs →
  selectOptsIn i entries ∅ = Ok (optionSet i configs).
Proof.
  intros Hi Hne Hperm.
  assert (NoDup entries.*1) as Hnd.
  { rewrite Hperm. apply NoDup_fst_map_to_list. }
  assert (Forall (λ kv, kv.2 ≠ []) entries) as Hall.
  { rewrite Hperm. apply Forall_forall. intros [k v] Hkv.
    apply elem_of_map_to_list in Hkv. by apply (Hne k v). }
  destruct (selectOptsIn_ok i entries ∅ Hi Hnd Hall) as (opts' & -> & Hlook).
  f_equal. apply map_eq. intros k. rewrite Hlook.
  assert ((list_to_map entries : gmap string (list value)) = configs) as ->.
  { rewrite <- (list_to_map_to_list configs).
    by apply list_to_map_proper. }
  unfold optionSet. rewrite lookup_omap.
  destruct (configs !! k); [done | by rewrite lookup_empty].
Qed.

Lemma selectOpts_optionSet (i : Z) (configs : gmap string (list value)) :
  0 ≤ i → nonEmptyLists configs → selectOpts i configs = Ok (optionSet i configs).
Proof. intros. by apply selectOptsIn_optionSet. Qed.

Lemma selectOptsIn_faults (i : Z) (configs : gmap string (list value))
    (entries : list (string * list value)) (k : string) :
  0 ≤ i → configs !! k = Some [] → entries ≡ₚ map_to_list configs →
  selectOptsIn i entries ∅ = Panic DivideByZero.
Proof.
  intros Hi Hk Hperm. apply selectOptsIn_empty; [done |].
  apply Exists_exists. exists (k, []). split; [| done].
  rewrite Hperm. by apply elem_of_map_to_list.
Qed.

(** The order in which [range] visits the options does not matter. *)
Lemma selectOptsIn_order (i : Z) (configs : gmap string (list value))
    (entries : list (string * list value)) :
  0 ≤ i → entries ≡ₚ map_to_list configs →
  selectOptsIn i entries ∅ = selectOpts i configs.
Proof.
  intros Hi Hperm.
  destruct (decide (nonEmptyLists configs)) as [Hne | Hne].
  - rewrite selectOpts_optionSet by done. by apply selectOptsIn_optionSet.
  - apply map_not_Forall in Hne; [| apply _].
    destruct Hne as (k & v & Hk & Hv).
    assert (v = []) as -> by (by destruct (decide (v = []))).
    rewrite (selectOptsIn_faults i configs entries k) by done.
    symmetry. by apply (selectOptsIn_faults i configs _ k).
Qed.

(** ** The allocator loop *)

Section Allocator.

Context `{dm.MachineProvisioner P}.

(** Every run of the loop is a run of provisioner calls, one per index
    in order, that stops after the first failed call. *)
Lemma provisionEach_run (idxs : list Z) (configs : gmap string (list value))
    (machines : list Machine) (w : logged P) :
  Forall (λ i, 0 ≤ i) idxs → nonEmptyLists configs →
  ∃ steps,
    (provisionEach idxs configs machines w).2.2 = w.2 ++ callsOf steps ∧
    answers w.1 steps (provisionEach idxs configs machines w).2.1 ∧
    steps.*1 = (λ i, optionSet i configs) <$> take (length steps) idxs ∧
    returnsAfter (length idxs) machines steps
                 (provisionEach idxs configs machines w).1.
Proof.
  intros Hpos Hne. revert machines w.
  induction Hpos as [|i rest Hi Hrest IH]; intros machines w.
  - exists []. simpl. rewrite app_nil_r. repeat split; try done.
    exists []. by rewrite app_nil_r.
  - cbn [provisionEach]. rewrite selectOpts_optionSet by done.
    unfold callProvisionMachine.
    destruct (dm.ProvisionMachine (optionSet i configs) w.1) as [[m | err] p'] eqn:Hcall.
    + destruct (IH (machines ++ [m])
                   (p', w.2 ++ [dm.CallProvision (optionSet i configs) (inl m)]))
        as (steps & Hlog & Hans & Hopts & Hret).
      exists ((optionSet i configs, inl m) :: steps).
      split; [| split; [| split]].
      * rewrite Hlog. cbn. by rewrite <- app_assoc.
      * simpl. eauto.
      * cbn [length take]. rewrite !fmap_cons. by rewrite Hopts.
      * destruct (provisionEach rest configs _ _).1 as [ms | e | pn]; simpl in *.
        -- destruct Hret as (fresh & -> & Hans' & Hlen).
           exists (m :: fresh). rewrite <- app_assoc. csimpl.
           rewrite Hans'. repeat split; try done; lia.
        -- destruct Hret as (fresh & cause & Hans' & Hlen & ->).
           exists (m :: fresh), cause. csimpl.
           rewrite Hans'. repeat split; try done; lia.
        -- done.
    + exists [(optionSet i configs, inr err)]. simpl.
      split; [done | split; [eauto | split; [done |]]].
      exists [], err. csimpl. repeat split; try done; lia.
Qed.

(** A provisioner that can bring up one machine per index makes the
    loop return that many machines. *)
Lemma provisionEach_succeeds (idxs : list Z) (configs : gmap string (list value))
    (machines : list Machine) (w : logged P) :
  Forall (λ i, 0 ≤ i) idxs → nonEmptyLists configs →
  succeeds (length idxs) w.1 →
  ∃ fresh, (provisionEach idxs configs machines w).1 = Ok (machines ++ fresh) ∧
           length fresh = length idxs.
Proof.
  intros Hpos Hne. revert machines w.
  induction Hpos as [|i rest Hi Hrest IH]; intros machines w Hsucc.
  - exists []. simpl. by rewrite app_nil_r.
  - simpl in *. rewrite selectOpts_optionSet by done.
    unfold callProvisionMachine.
    destruct (Hsucc (optionSet i configs)) as (m & p' & -> & Hsucc').
    destruct (IH (machines ++ [m])
                 (p', w.2 ++ [dm.CallProvision (optionSet i configs) (inl m)]) Hsucc')
      as (fresh & -> & Hlen).
    exists (m :: fresh). rewrite <- app_assoc. simpl. split; [done | lia].
Qed.

(** The loop faults at once, before any call, when an option has no
    candidate. *)
Lemma provisionEach_faults (i : Z) (idxs : list Z)
    (configs : gmap string (list value)) (machines : list Machine)
    (w : logged P) (k : string) :
  0 ≤ i → configs !! k = Some [] →
  provisionEach (i :: idxs) configs machines w = (Panic DivideByZero, w).
Proof.
  intros Hi Hk. simpl. unfold selectOpts.
  by rewrite (selectOptsIn_faults i configs _ k).
Qed.

Lemma seqZ_nonneg (n : Z) : Forall (λ i, 0 ≤ i) (seqZ 0 n).
Proof. apply Forall_forall. intros i Hi. apply elem_of_seqZ in Hi. lia. Qed.

Lemma take_seqZ (k : nat) (n : Z) :
  (k ≤ Z.to_nat n)%nat → take k (seqZ 0 n) = seqZ 0 (Z.of_nat k).
Proof.
  intros Hk. apply list_eq. intros j.
  destruct (decide (j < k)%nat) as [Hj | Hj].
  - rewrite lookup_take_lt by done.
    rewrite !lookup_seqZ_lt by lia. done.
  - rewrite lookup_take_ge by lia.
    rewrite lookup_seqZ_ge by lia. done.
Qed.

End Allocator.

Section AllocatorRuns.

Context `{dm.MachineProvisioner P}.

Lemma returnsAfter_length (n : nat) (machines : list Machine)
    (steps : list (DriverOpts * result Machine)) (r : outcome (list Machine)) :
  returnsAfter n machines steps r → (length steps ≤ n)%nat.
Proof.
  destruct r as [ms | e | pn]; simpl; [| | done].
  - intros (fresh & _ & Hans & Hlen).
    apply (f_equal length) in Hans. rewrite !length_fmap in Hans. lia.
  - intros (fresh & cause & Hans & Hlen & _).
    apply (f_equal length) in Hans.
    rewrite length_app, !length_fmap in Hans. simpl in Hans. lia.
Qed.

(** [ProvisionMachines] as a run of provisioner calls. *)
Lemma ProvisionMachines_run (numMachines : Z)
    (configs : gmap string (list value)) (w : logged P) :
  nonEmptyLists configs →
  ∃ steps,
    (ProvisionMachines numMachines configs w).2.2 = w.2 ++ callsOf steps ∧
    answers w.1 steps (ProvisionMachines numMachines configs w).2.1 ∧
    steps.*1 = (λ i, optionSet i configs) <$> seqZ 0 (Z.of_nat (length steps)) ∧
    returnsAfter (Z.to_nat numMachines) [] steps
                 (ProvisionMachines numMachines configs w).1.
Proof.
  intros Hne. unfold ProvisionMachines.
  destruct (provisionEach_run (seqZ 0 numMachines) configs [] w
              (seqZ_nonneg numMachines) Hne)
    as (steps & Hlog & Hans & Hopts & Hret).
  rewrite length_seqZ in Hret.
  exists steps. repeat split; try done.
  rewrite Hopts. f_equal. apply take_seqZ.
  by eapply returnsAfter_length.
Qed.

Lemma ProvisionMachines_succeeds (numMachines : Z)
    (configs : gmap string (list value)) (w : logged P) :
  nonEmptyLists configs → succeeds (Z.to_nat numMachines) w.1 →
  ∃ fresh, (ProvisionMachines numMachines configs w).1 = Ok fresh ∧
           length fresh = Z.to_nat numMachines.
Proof.
  intros Hne Hsucc. unfold ProvisionMachines.
  destruct (provisionEach_succeeds (seqZ 0 numMachines) configs [] w
              (seqZ_nonneg numMachines) Hne) as (fresh & Hrun & Hlen).
  { by rewrite length_seqZ. }
  rewrite length_seqZ in Hlen. by exists fresh.
Qed.

Lemma ProvisionMachines_faults (numMachines : Z)
    (configs : gmap string (list value)) (w : logged P) (k : string) :
  1 ≤ numMachines → configs !! k = Some [] →
  ProvisionMachines numMachines configs w = (Panic DivideByZero, w).
Proof.
  intros Hn Hk. unfold ProvisionMachines.
  rewrite (seqZ_cons 0 numMachines) by lia.
  by apply (provisionEach_faults 0 _ configs [] w k).
Qed.

Lemma callsOf_lookup (steps : list (DriverOpts * result Machine))
    (j : nat) (c : dm.call) :
  callsOf steps !! j = Some c →
  ∃ s, steps !! j = Some s ∧ c = dm.CallProvision s.1 s.2.
Proof.
  unfold callsOf. rewrite list_lookup_fmap.
  destruct (steps !! j) as [s |]; simpl; [| done].
  intros [= <-]. by exists s.
Qed.

(** C1.  For a positive machine count and option lists that are all
    non-empty, the option set built for machine index [i < count] holds,
    under every option key, the candidate at position [i mod len(values)]
    and nothing under other keys, in whatever order the keys are visited;
    with a single key and a list of length [L] it is that key with the
    value at [i mod L].  It is the option set passed by the call for
    machine [i], and a provisioner that can bring up [count] machines does
    receive that call. *)
Theorem ProvisionMachines_round_robin (count : Z)
    (configs : gmap string (list value)) (w : logged P) (i : Z) :
  0 < count → nonEmptyLists configs → 0 ≤ i < count →
  selectOpts i configs = Ok (optionSet i configs) ∧
  (∀ entries, entries ≡ₚ map_to_list configs →
     selectOptsIn i entries ∅ = Ok (optionSet i configs)) ∧
  (∀ k v, configs !! k = Some v →
     optionSet i configs !! k = v !! Z.to_nat (i `mod` Z.of_nat (length v)) ∧
     is_Some (optionSet i configs !! k)) ∧
  (∀ k, configs !! k = None → optionSet i configs !! k = None) ∧
  (∀ k v, configs = {[k := v]} →
     ∃ x, v !! Z.to_nat (i `mod` Z.of_nat (length v)) = Some x ∧
          selectOpts i configs = Ok {[k := x]}) ∧
  (∀ c, (ProvisionMachines count configs w).2.2
          !! (length w.2 + Z.to_nat i)%nat = Some c →
        ∃ r, c = dm.CallProvision (optionSet i configs) r) ∧
  (succeeds (Z.to_nat count) w.1 →
     is_Some ((ProvisionMachines count configs w).2.2
                !! (length w.2 + Z.to_nat i)%nat)).
Proof.
  intros Hcount Hne Hi.
  assert (∀ k v, configs !! k = Some v →
            optionSet i configs !! k = pick i v ∧ is_Some (pick i v)) as Hpick.
  { intros k v Hk. unfold optionSet. rewrite lookup_omap, Hk. simpl.
    split; [done |]. apply pick_is_Some; [lia |]. by apply (Hne k v). }
  split; [apply selectOpts_optionSet; [lia | done] |].
  split; [intros entries Hperm; apply selectOptsIn_optionSet; [lia | done | done] |].
  split.
  { intros k v Hk. destruct (Hpick k v Hk) as [Heq Hsome].
    rewrite Heq. by split. }
  split.
  { intros k Hk. unfold optionSet. by rewrite lookup_omap, Hk. }
  split.
  { intros k v ->.
    destruct (Hpick k v (lookup_singleton_eq k v)) as [Heq [x Hx]].
    exists x. split; [done |].
    rewrite selectOpts_optionSet by (lia || done). f_equal.
    unfold optionSet. by rewrite omap_singleton, Hx. }
  destruct (ProvisionMachines_run count configs w Hne)
    as (steps & Hlog & _ & Hopts & Hret).
  split.
  - intros c. rewrite Hlog, lookup_app_r by lia.
    replace (length w.2 + Z.to_nat i - length w.2)%nat with (Z.to_nat i) by lia.
    intros (s & Hs & ->)%callsOf_lookup. exists s.2. f_equal.
    assert (steps.*1 !! Z.to_nat i = Some s.1) as Hfst
      by (by rewrite list_lookup_fmap, Hs).
    rewrite Hopts, list_lookup_fmap in Hfst.
    apply lookup_lt_Some in Hs.
    rewrite lookup_seqZ_lt in Hfst by lia. simpl in Hfst.
    injection Hfst as <-. f_equal. lia.
  - intros Hsucc.
    destruct (ProvisionMachines_succeeds count configs w Hne Hsucc)
      as (fresh & Hok & Hlen).
    rewrite Hok in Hret. simpl in Hret.
    destruct Hret as (fresh' & [= ->] & Hans & _).
    apply (f_equal length) in Hans. rewrite !length_fmap in Hans.
    rewrite Hlog. apply lookup_lt_is_Some.
    rewrite length_app. unfold callsOf. rewrite length_fmap. lia.
Qed.

End AllocatorRuns.

Section AllocatorClaims.

Context `{dm.MachineProvisioner P}.

(** C2.  With the plan's invariant (no empty option list),
    [ProvisionMachines] makes provisioner calls and nothing else: one
    call per machine index, in index order, each with the option set of
    its index.  On success there are [numMachines] calls and the machines
    returned are the answers in request order.  When the call for index
    [k] fails, the calls for [0..k] are the only calls made, the error
    returned is the cause prefixed with ["failed to provision machines: "],
    no [DeleteAll] or [Close] call is made, and the provisioner is left in
    the state reached after those calls. *)
Theorem ProvisionMachines_sequential (numMachines : Z)
    (configs : gmap string (list value)) (w : logged P) :
  nonEmptyLists configs →
  ∃ steps,
    (ProvisionMachines numMachines configs w).2.2 = w.2 ++ callsOf steps ∧
    (dm.CallDeleteAll ∉ callsOf steps) ∧ (dm.CallClose ∉ callsOf steps) ∧
    answers w.1 steps (ProvisionMachines numMachines configs w).2.1 ∧
    steps.*1 = (λ i, optionSet i configs) <$> seqZ 0 (Z.of_nat (length steps)) ∧
    match (ProvisionMachines numMachines configs w).1 with
    | Ok machines =>
        steps.*2 = inl <$> machines ∧ length machines = Z.to_nat numMachines
    | Err e =>
        ∃ provisioned cause,
          steps.*2 = (inl <$> provisioned) ++ [inr cause] ∧
          (length provisioned < Z.to_nat numMachines)%nat ∧
          e = "failed to provision machines: " +:+ cause
    | Panic _ => False
    end.
Proof.
  intros Hne.
  destruct (ProvisionMachines_run numMachines configs w Hne)
    as (steps & Hlog & Hans & Hopts & Hret).
  exists steps.
  assert (∀ c, c ∈ callsOf steps → ∃ opts r, c = dm.CallProvision opts r) as Hkind.
  { intros c [s [-> _]]%list_elem_of_fmap. eauto. }
  split; [done |].
  split. { intros Hin. apply Hkind in Hin as (opts & r & [=]). }
  split. { intros Hin. apply Hkind in Hin as (opts & r & [=]). }
  split; [done |]. split; [done |].
  destruct (ProvisionMachines numMachines configs w).1 as [ms | e | pn];
    simpl in Hret; [| done | done].
  destruct Hret as (fresh & -> & Hfresh & Hlen). by simpl.
Qed.

(** C10.  For a count of at least one, [ProvisionMachines] is free of
    faults exactly when every option list is non-empty: then every index
    computation [i % len(v)] of every machine index is defined and within
    bounds; and an option with an empty list makes the call fault with a
    division by zero before the provisioner is called.
    [parseDriverOptsSlice] keeps an empty sequence as it is, so the options
    it returns can make [ProvisionMachines] fault. *)
Theorem ProvisionMachines_total_iff_nonEmpty (count : Z)
    (configs : gmap string (list value)) (w : logged P)
    (fmtValue : value → string) (k : string) :
  1 ≤ count →
  (nonEmptyLists configs →
     (∀ i key v, 0 ≤ i < count → configs !! key = Some v →
        Z.of_nat (length v) ≠ 0 ∧
        is_Some (index v (Z.rem i (Z.of_nat (length v))))) ∧
     ∀ pn, (ProvisionMachines count configs w).1 ≠ Panic pn) ∧
  (configs !! k = Some [] →
     ProvisionMachines count configs w = (Panic DivideByZero, w)) ∧
  ((∀ pn, (ProvisionMachines count configs w).1 ≠ Panic pn) →
     nonEmptyLists configs) ∧
  parseDriverOptsSlice fmtValue (VMap [(VStr k, VSeq [])])
    = (Some {[ k := [] ]}, None) ∧
  ProvisionMachines count
    (mapOf (parseDriverOptsSlice fmtValue (VMap [(VStr k, VSeq [])])).1) w
    = (Panic DivideByZero, w).
Proof.
  intros Hcount. split; [| split; [| split; [| split]]].
  - intros Hne. split.
    + intros i key v Hi Hkey.
      assert (v ≠ []) as Hv by (by apply (Hne key v)).
      split; [destruct v; [done | simpl; lia] |].
      rewrite index_rem by (lia || done). apply pick_is_Some; [lia | done].
    + intros pn Hpn.
      destruct (ProvisionMachines_run count configs w Hne) as (steps & _ & _ & _ & Hret).
      by rewrite Hpn in Hret.
  - intros Hk. by apply (ProvisionMachines_faults count configs w k).
  - intros Hfree key v Hkey ->.
    apply (Hfree DivideByZero).
    by rewrite (ProvisionMachines_faults count configs w key).
  - done.
  - apply (ProvisionMachines_faults count _ w k); [done |].
    simpl. apply lookup_insert_eq.
Qed.

(** C3.  For a non-dedicated plan that asks for more apps hosts than
    there are core machines, with the plan's invariant on the option
    lists and a provisioner able to bring up the missing machines:
    [ProvisionPool] makes exactly [appsHosts - len(coreMachines)]
    provisioner calls and returns the machines they answered, in order,
    followed by all core machines; the result has [appsHosts] elements
    and its last [len(coreMachines)] elements are the core machines in
    their order. *)
Theorem ProvisionPool_deficit (config : TsuruInstallConfig)
    (coreMachines : list Machine) (w : logged P) :
  DedicatedAppsHosts config = false →
  AppsHosts config > Z.of_nat (length coreMachines) →
  nonEmptyLists (mapOf (AppsDriversOpts config)) →
  succeeds (Z.to_nat (AppsHosts config - Z.of_nat (length coreMachines))) w.1 →
  ∃ fresh steps,
    (ProvisionPool config coreMachines w).1 = Ok (fresh ++ coreMachines) ∧
    (ProvisionPool config coreMachines w).2.2 = w.2 ++ callsOf steps ∧
    steps.*2 = inl <$> fresh ∧
    Z.of_nat (length steps) = AppsHosts config - Z.of_nat (length coreMachines) ∧
    Z.of_nat (length fresh) = AppsHosts config - Z.of_nat (length coreMachines) ∧
    Z.of_nat (length (fresh ++ coreMachines)) = AppsHosts config ∧
    drop (length (fresh ++ coreMachines) - length coreMachines)
         (fresh ++ coreMachines) = coreMachines.
Proof.
  intros Hded Hmore Hne Hsucc. unfold ProvisionPool.
  rewrite Hded, decide_True by done.
  set (deficit := AppsHosts config - Z.of_nat (length coreMachines)) in *.
  destruct (ProvisionMachines_succeeds deficit _ w Hne Hsucc) as (fresh & Hok & Hlen).
  destruct (ProvisionMachines_run deficit _ w Hne) as (steps & Hlog & _ & _ & Hret).
  destruct (ProvisionMachines deficit _ w) as [r w'] eqn:Hrun.
  simpl in Hok, Hlog, Hret. subst r. simpl in Hret.
  destruct Hret as (fresh' & [= <-] & Hans & _).
  exists fresh, steps. simpl.
  assert (length steps = length fresh) as Hsteps.
  { apply (f_equal length) in Hans. by rewrite !length_fmap in Hans. }
  rewrite length_app.
  repeat split; try done; try lia.
  replace (length fresh + length coreMachines - length coreMachines)%nat
    with (length fresh) by lia.
  by rewrite drop_app_length.
Qed.


End AllocatorClaims.

(** ** The allocator on concrete inputs *)

Ltac solve_succeeds :=
  cbn; repeat (intros ?; do 2 eexists; split; [reflexivity |]); exact I.

Lemma zones_nonEmpty : nonEmptyLists Fake.zones.
Proof. apply map_Forall_singleton. discriminate. Defined.

(** Four machines with [{zone: [a, b]}] get the zones [a, b, a, b]. *)
Example zones_of_four_machines :
  (ProvisionMachines 4 Fake.zones
     ([inl Fake.m0; inl Fake.m1; inl Fake.m2; inl Fake.m0], [])).2.2
  = callsOf [({[ "zone" := VStr "a" ]}, inl Fake.m0);
             ({[ "zone" := VStr "b" ]}, inl Fake.m1);
             ({[ "zone" := VStr "a" ]}, inl Fake.m2);
             ({[ "zone" := VStr "b" ]}, inl Fake.m0)].
Proof. vm_compute. reflexivity. Qed.

(** A failure at index 1 of 3: two calls, an error, the third scripted
    answer left unused. *)
Example provision_stops_at_failure :
  ProvisionMachines 3 Fake.zones ([inl Fake.m0; inr "boom"; inl Fake.m2], [])
  = (Err "failed to provision machines: boom",
     ([inl Fake.m2],
      callsOf [({[ "zone" := VStr "a" ]}, inl Fake.m0);
               ({[ "zone" := VStr "b" ]}, inr "boom")])).
Proof. vm_compute. reflexivity. Qed.

(** Five apps hosts over three core machines, not dedicated: two fresh
    machines followed by the three core machines. *)
Example apps_pool_of_five :
  (ProvisionPool (setAppsHosts 5 Fake.defaultPlan) [Fake.c0; Fake.c1; Fake.c2]
                 ([inl Fake.m0; inl Fake.m1; inl Fake.m2], [])).1
  = Ok [Fake.m0; Fake.m1; Fake.c0; Fake.c1; Fake.c2].
Proof. vm_compute. reflexivity. Qed.

Lemma ProvisionMachines_round_robin_witness :
  0 < 4 ∧ nonEmptyLists Fake.zones ∧ 0 ≤ 3 < 4 ∧
  selectOpts 3 Fake.zones = Ok (optionSet 3 Fake.zones).
Proof.
  split; [lia |]. split; [exact zones_nonEmpty |]. split; [lia |].
  exact (proj1 (ProvisionMachines_round_robin
                  4 Fake.zones
                  ([inl Fake.m0; inl Fake.m1; inl Fake.m2; inl Fake.m0], []) 3
                  ltac:(lia) zones_nonEmpty ltac:(lia))).
Defined.

Lemma ProvisionMachines_sequential_witness :
  nonEmptyLists Fake.zones ∧
  ∃ steps,
    (ProvisionMachines 3 Fake.zones
       ([inl Fake.m0; inr "boom"; inl Fake.m2], [])).2.2 = [] ++ callsOf steps ∧
    (dm.CallDeleteAll ∉ callsOf steps).
Proof.
  split; [exact zones_nonEmpty |].
  destruct (ProvisionMachines_sequential
              3 Fake.zones ([inl Fake.m0; inr "boom"; inl Fake.m2], [])
              zones_nonEmpty) as (steps & Hlog & Hdel & _).
  exists steps. split; [exact Hlog | exact Hdel].
Defined.

Lemma ProvisionMachines_total_iff_nonEmpty_witness :
  1 ≤ 2 ∧
  ProvisionMachines 2
    (mapOf (parseDriverOptsSlice Fake.fmtValue (VMap [(VStr "zone", VSeq [])])).1)
    ([inl Fake.m0; inl Fake.m1], [])
  = (Panic DivideByZero, ([inl Fake.m0; inl Fake.m1], [])).
Proof.
  split; [lia |].
  exact (proj2 (proj2 (proj2 (proj2
           (ProvisionMachines_total_iff_nonEmpty
              2 Fake.noZone ([inl Fake.m0; inl Fake.m1], [])
              Fake.fmtValue "zone" ltac:(lia)))))).
Defined.

Lemma ProvisionPool_deficit_witness :
  DedicatedAppsHosts (setAppsHosts 5 Fake.defaultPlan) = false ∧
  AppsHosts (setAppsHosts 5 Fake.defaultPlan)
    > Z.of_nat (length [Fake.c0; Fake.c1; Fake.c2]) ∧
  ∃ (fresh : list Machine) (steps : list (DriverOpts * result Machine)),
    (ProvisionPool (setAppsHosts 5 Fake.defaultPlan) [Fake.c0; Fake.c1; Fake.c2]
                   ([inl Fake.m0; inl Fake.m1; inl Fake.m2], [])).1
    = Ok (fresh ++ [Fake.c0; Fake.c1; Fake.c2]) ∧
    Z.of_nat (length steps) = 2.
Proof.
  split; [reflexivity |]. split; [simpl; lia |].
  destruct (ProvisionPool_deficit
              (setAppsHosts 5 Fake.defaultPlan) [Fake.c0; Fake.c1; Fake.c2]
              ([inl Fake.m0; inl Fake.m1; inl Fake.m2], []))
    as (fresh & steps & Hok & _ & _ & Hsteps & _).
  - reflexivity.
  - simpl. lia.
  - intros k v Hk. simpl in Hk. by rewrite lookup_empty in Hk.
  - solve_succeeds.
  - exists fresh, steps. split; [exact Hok | exact Hsteps].
Defined.



(** ** The component loop *)

(** C4.  The loop installs the components of the catalog in their
    declared order, each with the cluster and the given settings, and
    makes no other call on a component.  When it runs to its end, every
    component was installed.  When it returns an error, the catalog
    splits into the components before the failing one, which were all
    installed with success, the failing one, which was the last to be
    called, and the later ones, which were never called; the error names
    the failing component and carries its cause; and the cluster is left
    as those installs left it. *)
Theorem Run_installComponents_stops_at_first_failure {C}
    (components : list (TsuruComponent C)) (cfg : ComponentsConfig)
    (st : installRun C) :
  ∃ installs,
    componentCalls (Run_installComponents components cfg st).2
      = componentCalls st ++ installCallsOf cfg installs ∧
    installed (cluster st) cfg installs
              (cluster (Run_installComponents components cfg st).2) ∧
    match (Run_installComponents components cfg st).1 with
    | None => installs = succeeded components
    | Some e =>
        ∃ before failing cause later,
          components = before ++ failing :: later ∧
          installs = succeeded before ++ [(failing, Some cause)] ∧
          e = "error installing " +:+ Name failing +:+ ": " +:+ cause
    end.
Proof.
  revert st. induction components as [|component rest IH]; intros st.
  - exists []. simpl. by rewrite app_nil_r.
  - cbn [Run_installComponents]. unfold callInstall. cbn [cluster Fprintf].
    destruct (Install component (cluster st) cfg) as [[cause |] cl'] eqn:Hinst.
    + exists [(component, Some cause)]. cbn.
      split; [done |]. split; [eauto |].
      by exists [], component, cause, rest.
    + match goal with
      | |- context [Run_installComponents rest cfg ?st1] =>
          destruct (IH st1) as (installs & Hcalls & Hinstalled & Hres)
      end.
      exists ((component, None) :: installs).
      split; [| split].
      * rewrite Hcalls. cbn. by rewrite <- app_assoc.
      * cbn in Hinstalled |- *. eauto.
      * destruct (Run_installComponents rest cfg _).1 as [e |].
        -- destruct Hres as (before & failing & cause & later & -> & -> & ->).
           by exists (component :: before), failing, cause, later.
        -- by rewrite Hres.
Qed.

(** The catalog [[A; B; C]] with a failing [B]: [A] and [B] are
    installed, [C] is not, and the error names [B]. *)
Example install_A_B_C :
  let catalog := [Fake.component "A" None; Fake.component "B" (Some "down");
                  Fake.component "C" None] in
  let cfg := Fake.newInstallConfig "tsuru" in
  Run_installComponents catalog cfg
    {| cluster := []; stdout := []; componentCalls := [] |}
  = (Some "error installing B: down",
     {| cluster := ["A"];
        stdout := ["Installing A" +:+ nl; "A successfully installed!" +:+ nl;
                   "Installing B" +:+ nl];
        componentCalls := [CallInstall "A" cfg None;
                           CallInstall "B" cfg (Some "down")] |}).
Proof. reflexivity. Qed.

(** ** The host registrar *)

Lemma lastNamed_cons (name : string) (m : Machine) (machines : list Machine) :
  lastNamed name (m :: machines)
  = match lastNamed name machines with
    | Some x => Some x
    | None => if decide (dm.Name m = name) then Some m else None
    end.
Proof.
  unfold lastNamed. rewrite filter_cons.
  destruct (decide (dm.Name m = name)); [| by destruct (last _)].
  destruct (filter _ machines) as [|x l]; [done |].
  rewrite last_cons. by destruct (last (x :: l)).
Qed.

Lemma lastNamed_Some (name : string) (machines : list Machine) (m : Machine) :
  lastNamed name machines = Some m → dm.Name m = name ∧ m ∈ machines.
Proof.
  unfold lastNamed. intros Hlast.
  apply last_Some_elem_of, list_elem_of_filter in Hlast. tauto.
Qed.

Lemma lastNamed_is_Some (name : string) (machines : list Machine) (m : Machine) :
  m ∈ machines → dm.Name m = name → is_Some (lastNamed name machines).
Proof.
  intros Hin Hname. unfold lastNamed.
  assert (m ∈ filter (λ m, dm.Name m = name) machines) as Hf
    by (by apply list_elem_of_filter).
  destruct (filter _ machines) as [|x l] eqn:Hl; [by apply elem_of_nil in Hf |].
  apply last_is_Some. done.
Qed.

(** The index holds, under each name, the last machine of that name. *)
Lemma machineIndex_fold (name : string) (machines : list Machine)
    (machineIndex : gmap string Machine) :
  foldl (λ machineIndex m, <[dm.Name m:=m]> machineIndex) machineIndex machines
    !! name
  = match lastNamed name machines with
    | Some m => Some m
    | None => machineIndex !! name
    end.
Proof.
  revert machineIndex. induction machines as [|m rest IH]; intros machineIndex.
  - done.
  - cbn [foldl]. rewrite IH, lastNamed_cons.
    destruct (lastNamed name rest); [done |].
    destruct (decide (dm.Name m = name)) as [<- | Hne].
    + by rewrite lookup_insert_eq.
    + by rewrite lookup_insert_ne.
Qed.

Lemma Run_machineIndex_lookup (name : string) (coreMachines appsMachines : list Machine) :
  Run_machineIndex coreMachines appsMachines !! name
  = lastNamed name (coreMachines ++ appsMachines).
Proof.
  unfold Run_machineIndex. rewrite machineIndex_fold.
  destruct (lastNamed _ _); [done | apply lookup_empty].
Qed.

(** Any order of visiting the index yields machines with distinct names. *)
Lemma rangeOf_NoDup (coreMachines appsMachines uniqueMachines : list Machine) :
  rangeOf (Run_machineIndex coreMachines appsMachines) uniqueMachines →
  NoDup (dm.Name <$> uniqueMachines).
Proof.
  unfold rangeOf. intros ->.
  assert ((dm.Name <$> (map_to_list (Run_machineIndex coreMachines appsMachines)).*2)
          = (map_to_list (Run_machineIndex coreMachines appsMachines)).*1) as ->.
  { rewrite <- list_fmap_compose. apply Forall_fmap_ext_1, Forall_forall.
    intros [k m] Hkm.
    apply elem_of_map_to_list in Hkm. rewrite Run_machineIndex_lookup in Hkm.
    apply lastNamed_Some in Hkm. simpl. tauto. }
  apply NoDup_fst_map_to_list.
Qed.

Section Registration.

Variable GetURLVersion : string → string → result string.
Variable json_Marshal : value → result string.
Variable ReadFile : string → string * option string.
Variable filepath_Join : string → string → string.
Variable url_Parse : string → option string.

Context `{Client K}.

(** The client accepts every request. *)
Hypothesis accepts : ∀ (r : request) (k : K), ∃ k', Do r k = (inl tt, k').

Lemma registration_name (path : string) (m : Machine) (r : request) :
  registration json_Marshal ReadFile filepath_Join path m = Some r →
  reqForm r !! "name" = Some (dm.Name m).
Proof.
  unfold registration. destruct (json_Marshal _); [| done].
  intros [= <-]. cbn [reqForm].
  rewrite !lookup_insert_ne by done. apply lookup_insert_eq.
Qed.

Lemma addInstallHost_sends (path : string) (m : Machine) (st : registrar K)
    (rawDriver : string) :
  json_Marshal (dm.Driver m) = inl rawDriver → url_Parse path = None →
  ∃ req,
    registration json_Marshal ReadFile filepath_Join path m = Some req ∧
    (addInstallHost json_Marshal ReadFile filepath_Join url_Parse path m st).1 = None ∧
    sent (addInstallHost json_Marshal ReadFile filepath_Join url_Parse path m st).2
      = sent st ++ [req].
Proof.
  intros Hraw Hurl. unfold registration, addInstallHost, readOrWarn.
  rewrite Hraw. eexists. split; [reflexivity |].
  unfold http_NewRequest. rewrite Hurl. unfold callDo, Header_Set, hostForm.
  cbn [reqMethod reqURL reqForm reqHeader].
  rewrite insert_empty.
  destruct (ReadFile (dm.SSHKeyPath m)) as [d1 [e1 |]];
    destruct (ReadFile (filepath_Join (dm.CAPath m) "ca.pem")) as [d2 [e2 |]];
    destruct (ReadFile (filepath_Join (dm.CAPath m) "ca-key.pem")) as [d3 [e3 |]];
    cbn [fst snd client Printf printed sent];
    match goal with
    | |- context [Do ?r ?k] => destruct (accepts r k) as [k' ->]
    end; done.
Qed.

Lemma addInstallHostsFrom_sends (path : string) (machines : list Machine)
    (st : registrar K) :
  url_Parse path = None →
  Forall (λ m, ∃ rawDriver, json_Marshal (dm.Driver m) = inl rawDriver) machines →
  ∃ reqs,
    Forall2 (λ m r, registration json_Marshal ReadFile filepath_Join path m = Some r)
            machines reqs ∧
    (addInstallHostsFrom json_Marshal ReadFile filepath_Join url_Parse
                         path machines st).1 = None ∧
    sent (addInstallHostsFrom json_Marshal ReadFile filepath_Join url_Parse
                              path machines st).2
      = sent st ++ reqs.
Proof.
  intros Hurl Hraw. revert st.
  induction Hraw as [|m rest [rawDriver Hm] Hrest IH]; intros st.
  - exists []. cbn. by rewrite app_nil_r.
  - destruct (addInstallHost_sends path m st rawDriver Hm Hurl)
      as (req & Hreq & Hnone & Hsent).
    cbn [addInstallHostsFrom].
    destruct (addInstallHost _ _ _ _ path m st) as [r st1].
    simpl in Hnone, Hsent. subst r.
    destruct (IH st1) as (reqs & Hall & Hnone' & Hsent').
    exists (req :: reqs). split; [by constructor |]. split; [done |].
    rewrite Hsent', Hsent. by rewrite <- app_assoc.
Qed.

(** C6.  Whatever order the index of machines is visited in, when the
    versioned URL is available and well formed, every descriptor can be
    serialized and the client accepts every request, [Run] registers the
    hosts without error and sends one request per entry of the index.
    For every name borne by a core or apps machine, exactly one of the
    requests sent is for that name, and it is the request built from the
    last machine of that name in the list of core machines followed by
    apps machines. *)
Theorem Run_registerHosts_dedup (coreMachines appsMachines uniqueMachines : list Machine)
    (st : registrar K) (path : string) :
  rangeOf (Run_machineIndex coreMachines appsMachines) uniqueMachines →
  GetURLVersion "1.3" "/install/hosts" = inl path →
  url_Parse path = None →
  (∀ m, m ∈ coreMachines ++ appsMachines →
        ∃ rawDriver, json_Marshal (dm.Driver m) = inl rawDriver) →
  ∃ reqs,
    (Run_registerHosts GetURLVersion json_Marshal ReadFile filepath_Join
                       url_Parse uniqueMachines st).1 = None ∧
    sent (Run_registerHosts GetURLVersion json_Marshal ReadFile filepath_Join
                            url_Parse uniqueMachines st).2 = sent st ++ reqs ∧
    length reqs = size (Run_machineIndex coreMachines appsMachines) ∧
    ∀ m, m ∈ coreMachines ++ appsMachines →
      ∃ winner req before after,
        lastNamed (dm.Name m) (coreMachines ++ appsMachines) = Some winner ∧
        registration json_Marshal ReadFile filepath_Join path winner = Some req ∧
        reqs = before ++ req :: after ∧
        ∀ r, r ∈ before ++ after → reqForm r !! "name" ≠ Some (dm.Name m).
Proof.
  intros Hrange Hpath Hurl Hraw.
  pose proof (rangeOf_NoDup _ _ _ Hrange) as Hnd.
  assert (∀ m, m ∈ uniqueMachines →
            Run_machineIndex coreMachines appsMachines !! dm.Name m = Some m) as Hidx.
  { intros m Hm. rewrite Hrange in Hm.
    apply list_elem_of_fmap in Hm as ([k m'] & -> & Hkm).
    apply elem_of_map_to_list in Hkm. simpl.
    pose proof Hkm as Hkm'. rewrite Run_machineIndex_lookup in Hkm'.
    apply lastNamed_Some in Hkm' as [<- _]. done. }
  assert (Forall (λ m, ∃ rawDriver, json_Marshal (dm.Driver m) = inl rawDriver)
                 uniqueMachines) as Hall.
  { apply Forall_forall. intros m Hm. apply Hraw.
    apply Hidx in Hm. rewrite Run_machineIndex_lookup in Hm.
    by apply lastNamed_Some in Hm as [_ ?]. }
  destruct (addInstallHostsFrom_sends path uniqueMachines st Hurl Hall)
    as (reqs & Hregs & Hnone & Hsent).
  exists reqs. unfold Run_registerHosts, addInstallHosts. rewrite Hpath.
  destruct (addInstallHostsFrom _ _ _ _ path uniqueMachines st) as [r st'].
  simpl in Hnone, Hsent. subst r. cbn [fst snd].
  split; [done |]. split; [done |]. split.
  { rewrite <- (Forall2_length _ _ _ Hregs), Hrange, length_fmap.
    apply length_map_to_list. }
  intros m Hm.
  destruct (lastNamed_is_Some (dm.Name m) _ m Hm eq_refl) as [winner Hwin].
  assert (winner ∈ uniqueMachines) as Hin.
  { rewrite Hrange. apply list_elem_of_fmap. exists (dm.Name m, winner).
    split; [done |]. apply elem_of_map_to_list.
    by rewrite Run_machineIndex_lookup. }
  pose proof (lastNamed_Some _ _ _ Hwin) as [Hname _].
  apply list_elem_of_split in Hin as (um1 & um2 & ->).
  apply Forall2_app_inv_l in Hregs as (before & reqs2 & Hbefore & Hreqs2 & ->).
  apply Forall2_cons_inv_l in Hreqs2 as (req & after & Hreq & Hafter & ->).
  exists winner, req, before, after.
  split; [done |]. split; [done |]. split; [done |].
  rewrite fmap_app, fmap_cons, Hname in Hnd.
  apply NoDup_app in Hnd as (_ & Hdisj & Hnd2).
  apply NoDup_cons in Hnd2 as [Hnotin2 _].
  intros r Hr Hrname.
  apply elem_of_app in Hr as [Hr | Hr].
  - apply list_elem_of_lookup in Hr as [j Hj].
    destruct (Forall2_lookup_r _ _ _ _ _ Hbefore Hj) as (m' & Hm' & Hreg').
    apply list_elem_of_lookup_2 in Hm'.
    apply registration_name in Hreg'. rewrite Hreg' in Hrname.
    injection Hrname as Hrname.
    apply (Hdisj (dm.Name m)); [| by left].
    apply list_elem_of_fmap. by exists m'.
  - apply list_elem_of_lookup in Hr as [j Hj].
    destruct (Forall2_lookup_r _ _ _ _ _ Hafter Hj) as (m' & Hm' & Hreg').
    apply list_elem_of_lookup_2 in Hm'.
    apply registration_name in Hreg'. rewrite Hreg' in Hrname.
    injection Hrname as Hrname.
    apply Hnotin2. apply list_elem_of_fmap. by exists m'.
Qed.

End Registration.

Lemma counting_accepts (r : request) (k : nat) : ∃ k', Do r k = (inl tt, k').
Proof. by exists (S k). Defined.

Lemma Run_registerHosts_dedup_witness :
  rangeOf (Run_machineIndex [Fake.twinOld; Fake.c0] [Fake.twinNew])
          (Run_uniqueMachines [Fake.twinOld; Fake.c0] [Fake.twinNew]) ∧
  ∃ reqs,
    (Fake.registerAll [Fake.twinOld; Fake.c0] [Fake.twinNew]).1 = None ∧
    sent (Fake.registerAll [Fake.twinOld; Fake.c0] [Fake.twinNew]).2 = [] ++ reqs ∧
    length reqs = size (Run_machineIndex [Fake.twinOld; Fake.c0] [Fake.twinNew]).
Proof.
  assert (rangeOf (Run_machineIndex [Fake.twinOld; Fake.c0] [Fake.twinNew])
            (Run_uniqueMachines [Fake.twinOld; Fake.c0] [Fake.twinNew])) as Hrange
    by (unfold rangeOf, Run_uniqueMachines; reflexivity).
  split; [exact Hrange |].
  destruct (Run_registerHosts_dedup
              Fake.getURLVersion Fake.jsonMarshal Fake.readFile Fake.filepathJoin
              Fake.urlParse counting_accepts
              [Fake.twinOld; Fake.c0] [Fake.twinNew]
              (Run_uniqueMachines [Fake.twinOld; Fake.c0] [Fake.twinNew])
              {| client := O; printed := []; sent := [] |}
              "http://tsuru.example/1.3/install/hosts")
    as (reqs & Hnone & Hsent & Hlen & _).
  - exact Hrange.
  - reflexivity.
  - reflexivity.
  - intros m _. destruct (dm.Driver m); eexists; reflexivity.
  - exists reqs. split; [exact Hnone |]. split; [exact Hsent | exact Hlen].
Defined.

(** Two machines of one name: one request for the name, carrying the
    descriptor of the later machine. *)
Example register_twins :
  (λ r, (reqForm r !! "name", reqForm r !! "driver"))
    <$> filter (λ r, reqForm r !! "name" = Some "twin")
               (sent (Fake.registerAll [Fake.twinOld; Fake.c0] [Fake.twinNew]).2)
  = [(Some "twin", Some "new")].
Proof. vm_compute. reflexivity. Qed.

(** ** The config resolver *)

Lemma absent_inv (cfg : ConfigData) (key : string) :
  absent cfg key = true →
  (∃ e, GetString cfg key = inr e) ∧ (∃ e, GetInt cfg key = inr e) ∧
  (∃ e, GetBool cfg key = inr e) ∧ getOrNil cfg key = VNil.
Proof.
  unfold absent, getOrNil. rewrite !andb_true_iff.
  intros [[[Hs Hi] Hb] Hg].
  destruct (GetString cfg key); [done |].
  destruct (GetInt cfg key); [done |].
  destruct (GetBool cfg key); [done |].
  destruct (Get cfg key); [done |]. repeat split; eauto.
Qed.

Section ResolverClaims.

Variable DefaultDockerMachineConfig : dm.DockerMachineConfig.
Variable NewInstallConfig : string → ComponentsConfig.
Variable fmtValue : value → string.
Variable ReadConfigFile : string → result ConfigData.

Local Abbreviation default :=
  (defaultTsuruInstallConfig DefaultDockerMachineConfig NewInstallConfig).
Local Abbreviation resolve :=
  (parseConfigFile NewInstallConfig fmtValue ReadConfigFile).

(** C7.  Called with the empty path on the package's initial state,
    the resolver returns the default plan and leaves the state as it is:
    one core host, one apps host, not dedicated, the machine
    configuration of the [dm] package with its driver name, and no
    per-index driver option for core or apps hosts. *)
Theorem parseConfigFile_empty_path :
  resolve "" default = (Ok default, default) ∧
  CoreHosts default = 1 ∧
  AppsHosts default = 1 ∧
  DedicatedAppsHosts default = false ∧
  DockerMachineConfig default = DefaultDockerMachineConfig ∧
  dm.cfgDriverName (DockerMachineConfig default)
    = dm.cfgDriverName DefaultDockerMachineConfig ∧
  ComponentsConfig_ default
    = NewInstallConfig (dm.cfgName DefaultDockerMachineConfig) ∧
  mapOf (CoreDriversOpts default) = ∅ ∧
  mapOf (AppsDriversOpts default) = ∅.
Proof. repeat split. Qed.

(** C8.  Resolved on the package's initial state from a file whose
    configuration holds, of the recognized keys, only [hosts:core:size]
    with the value 3, the plan is the default plan with [CoreHosts] set
    to 3: every other field equals the field of the default plan. *)
Theorem parseConfigFile_core_size_only (file : string) (cfg : ConfigData) :
  file ≠ "" → ReadConfigFile file = inl cfg → onlyCoreSize cfg 3 →
  (resolve file default).1 = Ok (setCoreHosts 3 default) ∧
  ∀ plan, (resolve file default).1 = Ok plan →
    CoreHosts plan = 3 ∧
    DockerMachineConfig plan = DockerMachineConfig default ∧
    ComponentsConfig_ plan = ComponentsConfig_ default ∧
    CoreDriversOpts plan = CoreDriversOpts default ∧
    AppsHosts plan = AppsHosts default ∧
    DedicatedAppsHosts plan = DedicatedAppsHosts default ∧
    AppsDriversOpts plan = AppsDriversOpts default.
Proof.
  intros Hfile Hread [Hsize Honly].
  assert ((resolve file default).1 = Ok (setCoreHosts 3 default)) as Hplan.
  { assert (∀ key, key ∈ recognizedKeys → key ≠ "hosts:core:size" →
              (∃ e, GetString cfg key = inr e) ∧ (∃ e, GetInt cfg key = inr e) ∧
              (∃ e, GetBool cfg key = inr e) ∧ getOrNil cfg key = VNil) as Habs
      by (intros key Hin Hne; apply absent_inv; by apply Honly).
    unfold parseConfigFile.
    rewrite decide_False by done. rewrite Hread.
    destruct (Habs "driver:name") as ([e1 H1] & _); [by repeat constructor | done |].
    destruct (Habs "name") as ([e2 H2] & _); [by repeat constructor | done |].
    destruct (Habs "docker-hub-mirror") as ([e3 H3] & _); [by repeat constructor | done |].
    destruct (Habs "driver:options") as (_ & _ & _ & H4); [by repeat constructor | done |].
    destruct (Habs "ca-path") as ([e5 H5] & _); [by repeat constructor | done |].
    destruct (Habs "hosts:apps:size") as (_ & [e6 H6] & _); [by repeat constructor | done |].
    destruct (Habs "hosts:apps:dedicated") as (_ & _ & [e7 H7] & _);
      [by repeat constructor | done |].
    destruct (Habs "hosts:core:driver:options") as (_ & _ & _ & H8);
      [by repeat constructor | done |].
    destruct (Habs "hosts:apps:driver:options") as (_ & _ & _ & H9);
      [by repeat constructor | done |].
    rewrite H1, H2, H3, H4, H5, Hsize, H6, H7, H8, H9.
    reflexivity. }
  split; [done |].
  intros plan. rewrite Hplan. intros [= <-]. repeat split.
Qed.

End ResolverClaims.

Lemma coreSize3_onlyCoreSize : onlyCoreSize (Fake.fromDocument Fake.coreSize3) 3.
Proof.
  split; [reflexivity |].
  intros key Hin Hne. unfold recognizedKeys in Hin.
  repeat (apply elem_of_cons in Hin as [-> | Hin]; [reflexivity || done |]).
  by apply elem_of_nil in Hin.
Defined.

Lemma parseConfigFile_core_size_only_witness :
  "install.yml" ≠ "" ∧
  onlyCoreSize (Fake.fromDocument Fake.coreSize3) 3 ∧
  (Fake.resolve Fake.coreSize3 "install.yml" Fake.defaultPlan).1
    = Ok (setCoreHosts 3 Fake.defaultPlan).
Proof.
  split; [discriminate |]. split; [exact coreSize3_onlyCoreSize |].
  exact (proj1 (parseConfigFile_core_size_only
                  Fake.dmConfig Fake.newInstallConfig Fake.fmtValue
                  (Fake.readConfigFile [("install.yml", Fake.coreSize3)])
                  "install.yml" (Fake.fromDocument Fake.coreSize3)
                  ltac:(discriminate) eq_refl coreSize3_onlyCoreSize)).
Defined.

(** C9 on the code.  The resolver writes through the pointer to the
    package's default: after a call that resolved [hosts:core:size: 3], a
    second call with the empty path returns a plan with three core hosts,
    not the default plan; and after [Run] has pinned the API port into
    the core driver options of the plan it was given, a later call with
    the empty path returns that option too. *)
Theorem parseConfigFile_default_is_shared :
  (Fake.resolve Fake.coreSize3 ""
     (Fake.resolve Fake.coreSize3 "install.yml" Fake.defaultPlan).2).1
    = Ok (setCoreHosts 3 Fake.defaultPlan) ∧
  CoreHosts (setCoreHosts 3 Fake.defaultPlan) ≠ CoreHosts Fake.defaultPlan ∧
  (Fake.resolve Fake.coreSize3 ""
     (Run_openPort 8080 (λ _, "8080")
        (Fake.resolve Fake.coreSize3 "" Fake.defaultPlan).2).2).1
    = Ok (setCoreDriversOpts
            (Some {[ "virtualbox-open-port" := [VStr "8080"] ]}) Fake.defaultPlan) ∧
  mapOf (CoreDriversOpts
           (setCoreDriversOpts
              (Some {[ "virtualbox-open-port" := [VStr "8080"] ]}) Fake.defaultPlan))
    ≠ ∅.
Proof.
  split; [vm_compute; reflexivity |].
  split; [discriminate |].
  split; [vm_compute; reflexivity |].
  simpl. apply insert_non_empty.
Qed.

(** * Further properties of the code *)

(** ** [parseDriverOptsSlice] *)

Lemma parseDriverOpt_string (parsedOpts : gmap string (list value))
    (k : string) (v : value) :
  parseDriverOpt parsedOpts (VStr k, v) = <[k:=candidatesOf v]> parsedOpts.
Proof. by destruct v. Qed.

Lemma parseDriverOpt_other_key (parsedOpts : gmap string (list value))
    (key v : value) (k : string) :
  key ≠ VStr k → parseDriverOpt parsedOpts (key, v) !! k = parsedOpts !! k.
Proof.
  intros Hkey. destruct key as [| | |k'| |]; try done.
  rewrite parseDriverOpt_string. apply lookup_insert_ne. congruence.
Qed.

Lemma parseDriverOpt_fold_fresh (entries : list (value * value))
    (parsedOpts : gmap string (list value)) (k : string) :
  VStr k ∉ entries.*1 →
  foldl parseDriverOpt parsedOpts entries !! k = parsedOpts !! k.
Proof.
  revert parsedOpts.
  induction entries as [|[key v] rest IH]; intros parsedOpts Hk; [done |].
  rewrite fmap_cons in Hk. apply not_elem_of_cons in Hk as [Hkey Hrest].
  cbn [foldl]. rewrite IH by done. by apply parseDriverOpt_other_key.
Qed.

Lemma parseDriverOpt_fold_entry (entries : list (value * value))
    (parsedOpts : gmap string (list value)) (k : string) (v : value) :
  NoDup entries.*1 → (VStr k, v) ∈ entries →
  foldl parseDriverOpt parsedOpts entries !! k = Some (candidatesOf v).
Proof.
  revert parsedOpts.
  induction entries as [|[key v'] rest IH]; intros parsedOpts Hnd Hin.
  - by apply elem_of_nil in Hin.
  - rewrite fmap_cons in Hnd. apply NoDup_cons in Hnd as [Hfresh Hnd].
    cbn [foldl]. apply elem_of_cons in Hin as [[= <- <-] | Hin].
    + rewrite parseDriverOpt_fold_fresh by done.
      rewrite parseDriverOpt_string. apply lookup_insert_eq.
    + by apply IH.
Qed.

Lemma parseDriverOpt_fold_origin (entries : list (value * value))
    (parsedOpts : gmap string (list value)) (k : string) (l : list value) :
  foldl parseDriverOpt parsedOpts entries !! k = Some l →
  parsedOpts !! k = Some l ∨ ∃ v, (VStr k, v) ∈ entries ∧ l = candidatesOf v.
Proof.
  revert parsedOpts.
  induction entries as [|[key v] rest IH]; intros parsedOpts Hl; [by left |].
  cbn [foldl] in Hl. apply IH in Hl as [Hl | (v' & Hin & ->)].
  - destruct key as [| | |k'| |];
      try (left; exact Hl).
    rewrite parseDriverOpt_string in Hl.
    destruct (decide (k' = k)) as [-> | Hne].
    + rewrite lookup_insert_eq in Hl. injection Hl as <-.
      right. exists v. split; [by left | done].
    + rewrite lookup_insert_ne in Hl by done. by left.
  - right. exists v'. split; [by right | done].
Qed.

(** X1.  Given a mapping with one entry per key, [parseDriverOptsSlice]
    returns no error and a map in which every string key of the mapping
    holds its candidates: a sequence as it is, any other value as a list
    of that one value.  Keys that are not strings, and keys that the
    mapping does not have, are not in the result. *)
Theorem parseDriverOptsSlice_lookup (fmtValue : value → string)
    (entries : list (value * value)) :
  NoDup entries.*1 →
  ∃ parsed,
    parseDriverOptsSlice fmtValue (VMap entries) = (Some parsed, None) ∧
    (∀ k v, (VStr k, v) ∈ entries → parsed !! k = Some (candidatesOf v)) ∧
    (∀ k l, (VStr k, VSeq l) ∈ entries → parsed !! k = Some l) ∧
    (∀ k, VStr k ∉ entries.*1 → parsed !! k = None).
Proof.
  intros Hnd. eexists. split; [reflexivity |]. split; [| split].
  - intros k v Hin. by apply parseDriverOpt_fold_entry.
  - intros k l Hin. by rewrite (parseDriverOpt_fold_entry _ _ k (VSeq l)).
  - intros k Hk. rewrite parseDriverOpt_fold_fresh by done. apply lookup_empty.
Qed.

(** X2.  The options parsed from a mapping with one entry per key keep
    the plan's invariant (no empty candidate list) exactly when no string
    key of the mapping holds the empty sequence. *)
Theorem parseDriverOptsSlice_nonEmpty (fmtValue : value → string)
    (entries : list (value * value)) :
  NoDup entries.*1 →
  nonEmptyLists (mapOf (parseDriverOptsSlice fmtValue (VMap entries)).1)
  ↔ ∀ k, (VStr k, VSeq []) ∉ entries.
Proof.
  intros Hnd. cbn [parseDriverOptsSlice fst mapOf default from_option].
  unfold id. split.
  - intros Hne k Hin.
    apply (Hne k []); [| done].
    by rewrite (parseDriverOpt_fold_entry _ _ k (VSeq [])).
  - intros Hno k l Hl ->.
    apply parseDriverOpt_fold_origin in Hl as [Hl | (v & Hin & Hv)].
    + by rewrite lookup_empty in Hl.
    + destruct v; try done. simpl in Hv. subst. by apply (Hno k).
Qed.

Lemma parseDriverOpt_comm (parsedOpts : gmap string (list value))
    (x y : value * value) :
  x.1 ≠ y.1 →
  parseDriverOpt (parseDriverOpt parsedOpts x) y
  = parseDriverOpt (parseDriverOpt parsedOpts y) x.
Proof.
  destruct x as [kx vx], y as [ky vy]. simpl. intros Hne.
  destruct kx as [| | |kx| |], ky as [| | |ky| |]; try done.
  rewrite !parseDriverOpt_string. apply insert_insert_ne. congruence.
Qed.

Lemma parseDriverOpt_fold_perm (entries entries' : list (value * value)) :
  entries ≡ₚ entries' → NoDup entries.*1 →
  ∀ parsedOpts,
    foldl parseDriverOpt parsedOpts entries
    = foldl parseDriverOpt parsedOpts entries'.
Proof.
  induction 1 as [|x l l' Hperm IH|x y l|l1 l2 l3 H12 IH12 H23 IH23];
    intros Hnd parsedOpts.
  - done.
  - rewrite fmap_cons in Hnd. apply NoDup_cons in Hnd as [_ Hnd].
    cbn [foldl]. by apply IH.
  - rewrite !fmap_cons in Hnd. apply NoDup_cons in Hnd as [Hy _].
    cbn [foldl]. f_equal. apply parseDriverOpt_comm.
    intros Heq. apply Hy. rewrite Heq. by left.
  - rewrite IH12 by done. apply IH23. by rewrite <- H12.
Qed.

(** X3.  For a mapping with one entry per key, the result of
    [parseDriverOptsSlice] does not depend on the order in which [range]
    visits the entries. *)
Theorem parseDriverOptsSlice_order (fmtValue : value → string)
    (entries entries' : list (value * value)) :
  NoDup entries.*1 → entries ≡ₚ entries' →
  parseDriverOptsSlice fmtValue (VMap entries)
  = parseDriverOptsSlice fmtValue (VMap entries').
Proof.
  intros Hnd Hperm. unfold parseDriverOptsSlice.
  by rewrite (parseDriverOpt_fold_perm entries entries' Hperm Hnd).
Qed.

(** ** Reasoning about stateful code *)

Section Stateful.

Context {S : Type}.

Lemma preserves_bind {A B} (P : S → Prop) (m : stateful S A)
    (f : A → stateful S B) :
  preserves P m → (∀ a, preserves P (f a)) → preserves P (m ≫= f).
Proof.
  intros Hm Hf s Hs. specialize (Hm s Hs).
  unfold mbind, stateful_bind. destruct (m s) as [[a | e | p] s']; simpl in *;
    [by apply Hf | done | done].
Qed.

Lemma preserves_ret {A} (P : S → Prop) (a : A) :
  preserves P (mret a : stateful S A).
Proof. by intros s Hs. Qed.

Lemma preserves_modify (P : S → Prop) (f : S → S) :
  (∀ s, P s → P (f s)) → preserves P (modify f).
Proof. intros Hf s Hs. by apply Hf. Qed.

Lemma preserves_getState (P : S → Prop) : preserves P (getState (S := S)).
Proof. by intros s Hs. Qed.

Lemma preserves_failWith {A} (P : S → Prop) (e : string) :
  preserves P (failWith e : stateful S A).
Proof. by intros s Hs. Qed.

Lemma preserves_panicWith {A} (P : S → Prop) (p : panic) :
  preserves P (panicWith p : stateful S A).
Proof. by intros s Hs. Qed.

Lemma preserves_whenOk {A} (P : S → Prop) (r : result A) (f : A → S → S) :
  (∀ x, r = inl x → ∀ s, P s → P (f x s)) → preserves P (whenOk r f).
Proof.
  intros Hf. destruct r as [x | e]; simpl.
  - apply preserves_modify. by apply Hf.
  - apply preserves_ret.
Qed.

Lemma establishes_bind {A B} (Q : S → Prop) (m : stateful S A)
    (f : A → stateful S B) :
  establishes Q m → (∀ a, preserves Q (f a)) → establishes Q (m ≫= f).
Proof.
  intros Hm Hf s. specialize (Hm s).
  unfold mbind, stateful_bind. destruct (m s) as [[a | e | p] s']; simpl in *;
    [by apply Hf | done | done].
Qed.

Lemma establishes_onSuccess {A} (Q : S → Prop) (m : stateful S A) :
  establishes Q m → onSuccess Q m.
Proof. intros Hm s a _. apply Hm. Qed.

Lemma onSuccess_bind {A B} (Q : S → Prop) (m : stateful S A)
    (f : A → stateful S B) :
  (∀ a, onSuccess Q (f a)) → onSuccess Q (m ≫= f).
Proof.
  intros Hf s b. unfold mbind, stateful_bind.
  destruct (m s) as [[a | e | p] s']; simpl; [apply Hf | done | done].
Qed.

Lemma returnsState_bind {A} (m : stateful S A) (f : A → stateful S S) :
  (∀ a, returnsState (f a)) → returnsState (m ≫= f).
Proof.
  intros Hf s b. unfold mbind, stateful_bind.
  destruct (m s) as [[a | e | p] s']; simpl; [apply Hf | done | done].
Qed.

Lemma returnsState_getState : returnsState (getState (S := S)).
Proof. intros s a. simpl. congruence. Qed.

Lemma bind_whenOk {A B} (r : result A) (f : A → S → S)
    (k : stateful S B) (s : S) :
  (whenOk r f ≫= λ _, k) s
  = k (match r with inl x => f x s | inr _ => s end).
Proof. by destruct r. Qed.

End Stateful.

Lemma preserves_assignParsed (fmtValue : value → string)
    (P : TsuruInstallConfig → Prop)
    (set : optsMap → TsuruInstallConfig → TsuruInstallConfig) (opts : value) :
  (opts ≠ VNil → ∀ x s, P s → P (set x s)) →
  preserves P (assignParsed fmtValue set opts).
Proof.
  intros Hset. unfold assignParsed.
  destruct opts; try apply preserves_ret;
    (destruct (parseDriverOptsSlice _ _) as [parsed [e |]];
     (apply preserves_bind;
      [ apply preserves_modify; by apply Hset
      | intros _; first [apply preserves_failWith | apply preserves_ret] ])).
Qed.

(** ** More on the config resolver *)

(** One step of [parseConfigFile] keeps a property that its assignment,
    when it happens, keeps. *)
Ltac keep_step :=
  first
    [ apply preserves_whenOk; intros; cbn in *; congruence
    | apply preserves_assignParsed; intros; cbn in *; congruence
    | apply preserves_getState
    | apply preserves_ret
    | apply preserves_modify; intros; cbn in *; congruence
    | match goal with
      | |- preserves _ (match getOrNil ?cfg ?key with _ => _ end) =>
          destruct (getOrNil cfg key) eqn:?;
          first [ apply preserves_ret
                | apply preserves_panicWith
                | apply preserves_modify; intros; cbn in *; congruence ]
      end ].

Ltac keep_steps := repeat (apply preserves_bind; [| intros ?]); keep_step.

Section ResolverMore.

Variable NewInstallConfig : string → ComponentsConfig.
Variable fmtValue : value → string.
Variable ReadConfigFile : string → result ConfigData.

Local Abbreviation resolve :=
  (parseConfigFile NewInstallConfig fmtValue ReadConfigFile).

(** A property that every assignment of a present key keeps is kept by
    the resolver. *)
Lemma parseConfigFile_keeps (P : TsuruInstallConfig → Prop) (file : string) :
  (∀ cfg, ReadConfigFile file = inl cfg →
     preserves P
       (whenOk (GetString cfg "driver:name")
               (λ x, setDockerMachineConfig (withDriverName x));;
        whenOk (GetString cfg "name")
               (λ x, setDockerMachineConfig (withName x));;
        whenOk (GetString cfg "docker-hub-mirror")
               (λ x, setDockerMachineConfig (withDockerHubMirror x));;
        match getOrNil cfg "driver:options" with
        | VNil => mret tt
        | VMap m =>
            modify (setDockerMachineConfig (withDriverOpts (driverOptsOf m)))
        | _ => panicWith InterfaceConversion
        end;;
        whenOk (GetString cfg "ca-path")
               (λ x, setDockerMachineConfig (withCAPath x));;
        whenOk (GetInt cfg "hosts:core:size") setCoreHosts;;
        whenOk (GetInt cfg "hosts:apps:size") setAppsHosts;;
        whenOk (GetBool cfg "hosts:apps:dedicated") setDedicatedAppsHosts;;
        assignParsed fmtValue setCoreDriversOpts
                     (getOrNil cfg "hosts:core:driver:options");;
        assignParsed fmtValue setAppsDriversOpts
                     (getOrNil cfg "hosts:apps:driver:options");;
        installConfig ← getState;
        modify (setComponentsConfig
                  (NewInstallConfig (dm.cfgName (DockerMachineConfig installConfig))));;
        getState)) →
  preserves P (resolve file).
Proof.
  intros Hbody. unfold parseConfigFile.
  destruct (decide (file = "")); [apply preserves_getState |].
  destruct (ReadConfigFile file) as [cfg | e]; [| apply preserves_failWith].
  by apply Hbody.
Qed.

(** Fields whose key is absent are left as they were. *)
Lemma parseConfigFile_untouched (file : string) (cfg : ConfigData)
    (s : TsuruInstallConfig) :
  ReadConfigFile file = inl cfg →
  ((∃ e, GetString cfg "driver:name" = inr e) →
     dm.cfgDriverName (DockerMachineConfig (resolve file s).2)
     = dm.cfgDriverName (DockerMachineConfig s)) ∧
  ((∃ e, GetString cfg "name" = inr e) →
     dm.cfgName (DockerMachineConfig (resolve file s).2)
     = dm.cfgName (DockerMachineConfig s)) ∧
  ((∃ e, GetString cfg "docker-hub-mirror" = inr e) →
     dm.cfgDockerHubMirror (DockerMachineConfig (resolve file s).2)
     = dm.cfgDockerHubMirror (DockerMachineConfig s)) ∧
  ((∃ e, GetString cfg "ca-path" = inr e) →
     dm.cfgCAPath (DockerMachineConfig (resolve file s).2)
     = dm.cfgCAPath (DockerMachineConfig s)) ∧
  (getOrNil cfg "driver:options" = VNil →
     dm.cfgDriverOpts (DockerMachineConfig (resolve file s).2)
     = dm.cfgDriverOpts (DockerMachineConfig s)) ∧
  ((∃ e, GetInt cfg "hosts:core:size" = inr e) →
     CoreHosts (resolve file s).2 = CoreHosts s) ∧
  ((∃ e, GetInt cfg "hosts:apps:size" = inr e) →
     AppsHosts (resolve file s).2 = AppsHosts s) ∧
  ((∃ e, GetBool cfg "hosts:apps:dedicated" = inr e) →
     DedicatedAppsHosts (resolve file s).2 = DedicatedAppsHosts s) ∧
  (getOrNil cfg "hosts:core:driver:options" = VNil →
     CoreDriversOpts (resolve file s).2 = CoreDriversOpts s) ∧
  (getOrNil cfg "hosts:apps:driver:options" = VNil →
     AppsDriversOpts (resolve file s).2 = AppsDriversOpts s).
Proof.
  intros Hread.
  repeat split.
  - intros [e He].
    apply (parseConfigFile_keeps
             (λ s', dm.cfgDriverName (DockerMachineConfig s')
                    = dm.cfgDriverName (DockerMachineConfig s))); [| done].
    intros cfg' Hcfg'. assert (cfg' = cfg) as -> by congruence. keep_steps.
  - intros [e He].
    apply (parseConfigFile_keeps
             (λ s', dm.cfgName (DockerMachineConfig s')
                    = dm.cfgName (DockerMachineConfig s))); [| done].
    intros cfg' Hcfg'. assert (cfg' = cfg) as -> by congruence. keep_steps.
  - intros [e He].
    apply (parseConfigFile_keeps
             (λ s', dm.cfgDockerHubMirror (DockerMachineConfig s')
                    = dm.cfgDockerHubMirror (DockerMachineConfig s))); [| done].
    intros cfg' Hcfg'. assert (cfg' = cfg) as -> by congruence. keep_steps.
  - intros [e He].
    apply (parseConfigFile_keeps
             (λ s', dm.cfgCAPath (DockerMachineConfig s')
                    = dm.cfgCAPath (DockerMachineConfig s))); [| done].
    intros cfg' Hcfg'. assert (cfg' = cfg) as -> by congruence. keep_steps.
  - intros He.
    apply (parseConfigFile_keeps
             (λ s', dm.cfgDriverOpts (DockerMachineConfig s')
                    = dm.cfgDriverOpts (DockerMachineConfig s))); [| done].
    intros cfg' Hcfg'. assert (cfg' = cfg) as -> by congruence. keep_steps.
  - intros [e He].
    apply (parseConfigFile_keeps (λ s', CoreHosts s' = CoreHosts s)); [| done].
    intros cfg' Hcfg'. assert (cfg' = cfg) as -> by congruence. keep_steps.
  - intros [e He].
    apply (parseConfigFile_keeps (λ s', AppsHosts s' = AppsHosts s)); [| done].
    intros cfg' Hcfg'. assert (cfg' = cfg) as -> by congruence. keep_steps.
  - intros [e He].
    apply (parseConfigFile_keeps
             (λ s', DedicatedAppsHosts s' = DedicatedAppsHosts s)); [| done].
    intros cfg' Hcfg'. assert (cfg' = cfg) as -> by congruence. keep_steps.
  - intros He.
    apply (parseConfigFile_keeps
             (λ s', CoreDriversOpts s' = CoreDriversOpts s)); [| done].
    intros cfg' Hcfg'. assert (cfg' = cfg) as -> by congruence. keep_steps.
  - intros He.
    apply (parseConfigFile_keeps
             (λ s', AppsDriversOpts s' = AppsDriversOpts s)); [| done].
    intros cfg' Hcfg'. assert (cfg' = cfg) as -> by congruence. keep_steps.
Qed.

(** X4.  Partial override.  Whatever the resolver returns, a field of the
    shared plan whose key the configuration does not have is left as it
    was: the driver name, the name, the mirror, the CA path, the driver
    options, the host counts, the dedicated flag and the per-index
    options of core and apps hosts. *)
Theorem parseConfigFile_absent_keys_untouched (file : string) (cfg : ConfigData)
    (s : TsuruInstallConfig) :
  ReadConfigFile file = inl cfg →
  ((∃ e, GetString cfg "driver:name" = inr e) →
     dm.cfgDriverName (DockerMachineConfig (resolve file s).2)
     = dm.cfgDriverName (DockerMachineConfig s)) ∧
  ((∃ e, GetString cfg "name" = inr e) →
     dm.cfgName (DockerMachineConfig (resolve file s).2)
     = dm.cfgName (DockerMachineConfig s)) ∧
  ((∃ e, GetString cfg "docker-hub-mirror" = inr e) →
     dm.cfgDockerHubMirror (DockerMachineConfig (resolve file s).2)
     = dm.cfgDockerHubMirror (DockerMachineConfig s)) ∧
  ((∃ e, GetString cfg "ca-path" = inr e) →
     dm.cfgCAPath (DockerMachineConfig (resolve file s).2)
     = dm.cfgCAPath (DockerMachineConfig s)) ∧
  (getOrNil cfg "driver:options" = VNil →
     dm.cfgDriverOpts (DockerMachineConfig (resolve file s).2)
     = dm.cfgDriverOpts (DockerMachineConfig s)) ∧
  ((∃ e, GetInt cfg "hosts:core:size" = inr e) →
     CoreHosts (resolve file s).2 = CoreHosts s) ∧
  ((∃ e, GetInt cfg "hosts:apps:size" = inr e) →
     AppsHosts (resolve file s).2 = AppsHosts s) ∧
  ((∃ e, GetBool cfg "hosts:apps:dedicated" = inr e) →
     DedicatedAppsHosts (resolve file s).2 = DedicatedAppsHosts s) ∧
  (getOrNil cfg "hosts:core:driver:options" = VNil →
     CoreDriversOpts (resolve file s).2 = CoreDriversOpts s) ∧
  (getOrNil cfg "hosts:apps:driver:options" = VNil →
     AppsDriversOpts (resolve file s).2 = AppsDriversOpts s).
Proof. exact (parseConfigFile_untouched file cfg s). Qed.

Lemma parseConfigFile_returnsState (file : string) : returnsState (resolve file).
Proof.
  unfold parseConfigFile.
  destruct (decide (file = "")); [apply returnsState_getState |].
  destruct (ReadConfigFile file) as [cfg | e]; [| by intros s a].
  repeat (apply returnsState_bind; intros ?). apply returnsState_getState.
Qed.

(** Skip the steps before the one that assigns, show the assignment, and
    keep it through the steps that follow. *)
Tactic Notation "assigned_after" integer(n) hyp(Hkey) :=
  do n (apply onSuccess_bind; intros _);
  apply establishes_onSuccess, establishes_bind;
  [ rewrite Hkey; intros ?; reflexivity | intros _; keep_steps ].

(** Keys that are present end up in the plan returned. *)
Lemma parseConfigFile_assigned (file : string) (cfg : ConfigData)
    (s plan : TsuruInstallConfig) :
  file ≠ "" → ReadConfigFile file = inl cfg → (resolve file s).1 = Ok plan →
  plan = (resolve file s).2 ∧
  (∀ x, GetString cfg "driver:name" = inl x →
        dm.cfgDriverName (DockerMachineConfig plan) = x) ∧
  (∀ x, GetString cfg "name" = inl x →
        dm.cfgName (DockerMachineConfig plan) = x) ∧
  (∀ x, GetString cfg "docker-hub-mirror" = inl x →
        dm.cfgDockerHubMirror (DockerMachineConfig plan) = x) ∧
  (∀ m, getOrNil cfg "driver:options" = VMap m →
        dm.cfgDriverOpts (DockerMachineConfig plan) = driverOptsOf m) ∧
  (∀ x, GetString cfg "ca-path" = inl x →
        dm.cfgCAPath (DockerMachineConfig plan) = x) ∧
  (∀ n, GetInt cfg "hosts:core:size" = inl n → CoreHosts plan = n) ∧
  (∀ n, GetInt cfg "hosts:apps:size" = inl n → AppsHosts plan = n) ∧
  (∀ b, GetBool cfg "hosts:apps:dedicated" = inl b →
        DedicatedAppsHosts plan = b) ∧
  (∀ m, getOrNil cfg "hosts:core:driver:options" = VMap m →
        CoreDriversOpts plan = (parseDriverOptsSlice fmtValue (VMap m)).1) ∧
  (∀ m, getOrNil cfg "hosts:apps:driver:options" = VMap m →
        AppsDriversOpts plan = (parseDriverOptsSlice fmtValue (VMap m)).1) ∧
  ComponentsConfig_ plan
    = NewInstallConfig (dm.cfgName (DockerMachineConfig plan)).
Proof.
  intros Hfile Hread Hplan.
  pose proof (parseConfigFile_returnsState file s plan Hplan) as Hstate.
  split; [done |]. rewrite Hstate.
  assert (∀ Q : TsuruInstallConfig → Prop,
            onSuccess Q (resolve file) → Q (resolve file s).2) as Hpost
    by (intros Q HQ; by apply (HQ s plan)).
  repeat split; intros; apply Hpost;
    unfold parseConfigFile; rewrite decide_False by done; rewrite Hread.
  - assigned_after 0 H.
  - assigned_after 1 H.
  - assigned_after 2 H.
  - assigned_after 3 H.
  - assigned_after 4 H.
  - assigned_after 5 H.
  - assigned_after 6 H.
  - assigned_after 7 H.
  - assigned_after 8 H.
  - assigned_after 9 H.
  - do 10 (apply onSuccess_bind; intros _). by intros s' a _.
Qed.

(** X5.  Overlay.  When the resolver returns a plan for a file, the plan
    is the shared plan as the call left it; every recognized key that the
    configuration has is in it: the strings, the host counts, the
    dedicated flag, the string-keyed driver options, and the per-index
    options as [parseDriverOptsSlice] reads them; and its component
    settings are built from the name the plan ends with. *)
Theorem parseConfigFile_present_keys_assigned (file : string) (cfg : ConfigData)
    (s plan : TsuruInstallConfig) :
  file ≠ "" → ReadConfigFile file = inl cfg → (resolve file s).1 = Ok plan →
  plan = (resolve file s).2 ∧
  (∀ x, GetString cfg "driver:name" = inl x →
        dm.cfgDriverName (DockerMachineConfig plan) = x) ∧
  (∀ x, GetString cfg "name" = inl x →
        dm.cfgName (DockerMachineConfig plan) = x) ∧
  (∀ x, GetString cfg "docker-hub-mirror" = inl x →
        dm.cfgDockerHubMirror (DockerMachineConfig plan) = x) ∧
  (∀ m, getOrNil cfg "driver:options" = VMap m →
        dm.cfgDriverOpts (DockerMachineConfig plan) = driverOptsOf m) ∧
  (∀ x, GetString cfg "ca-path" = inl x →
        dm.cfgCAPath (DockerMachineConfig plan) = x) ∧
  (∀ n, GetInt cfg "hosts:core:size" = inl n → CoreHosts plan = n) ∧
  (∀ n, GetInt cfg "hosts:apps:size" = inl n → AppsHosts plan = n) ∧
  (∀ b, GetBool cfg "hosts:apps:dedicated" = inl b →
        DedicatedAppsHosts plan = b) ∧
  (∀ m, getOrNil cfg "hosts:core:driver:options" = VMap m →
        CoreDriversOpts plan = (parseDriverOptsSlice fmtValue (VMap m)).1) ∧
  (∀ m, getOrNil cfg "hosts:apps:driver:options" = VMap m →
        AppsDriversOpts plan = (parseDriverOptsSlice fmtValue (VMap m)).1) ∧
  ComponentsConfig_ plan
    = NewInstallConfig (dm.cfgName (DockerMachineConfig plan)).
Proof. exact (parseConfigFile_assigned file cfg s plan). Qed.

(** X6.  A [driver:options] value that is present and is not a mapping
    makes the resolver fault on its unchecked type assertion: no error is
    returned. *)
Theorem parseConfigFile_driver_options_not_a_mapping (file : string)
    (cfg : ConfigData) (s : TsuruInstallConfig) :
  file ≠ "" → ReadConfigFile file = inl cfg →
  notMapping (getOrNil cfg "driver:options") →
  (resolve file s).1 = Panic InterfaceConversion.
Proof.
  intros Hfile Hread Hopts. unfold parseConfigFile.
  rewrite decide_False by done. rewrite Hread, !bind_whenOk.
  by destruct (getOrNil cfg "driver:options").
Qed.

(** X7.  A per-index options block that is present and is not a mapping
    makes the resolver return the error of [parseDriverOptsSlice].  The
    block's field of the shared plan has by then been overwritten with
    the nil map, and the component settings have not been rebuilt.  The
    apps block is only looked at when the core block is a mapping or
    absent. *)
Theorem parseConfigFile_host_options_not_a_mapping (file : string)
    (cfg : ConfigData) (s : TsuruInstallConfig) :
  file ≠ "" → ReadConfigFile file = inl cfg →
  mappingOrNil (getOrNil cfg "driver:options") →
  (notMapping (getOrNil cfg "hosts:core:driver:options") →
     (resolve file s).1
       = Err ("failed to parse opts: "
              +:+ fmtValue (getOrNil cfg "hosts:core:driver:options")) ∧
     CoreDriversOpts (resolve file s).2 = None ∧
     AppsDriversOpts (resolve file s).2 = AppsDriversOpts s ∧
     ComponentsConfig_ (resolve file s).2 = ComponentsConfig_ s) ∧
  (mappingOrNil (getOrNil cfg "hosts:core:driver:options") →
   notMapping (getOrNil cfg "hosts:apps:driver:options") →
     (resolve file s).1
       = Err ("failed to parse opts: "
              +:+ fmtValue (getOrNil cfg "hosts:apps:driver:options")) ∧
     AppsDriversOpts (resolve file s).2 = None ∧
     ComponentsConfig_ (resolve file s).2 = ComponentsConfig_ s).
Proof.
  intros Hfile Hread Hopts. unfold parseConfigFile.
  rewrite decide_False by done. rewrite Hread, !bind_whenOk.
  split.
  - intros Hcore.
    destruct (getOrNil cfg "driver:options"); try done;
      (unfold mbind at 1, stateful_bind at 1; cbn [mret stateful_ret modify];
       rewrite !bind_whenOk;
       destruct (getOrNil cfg "hosts:core:driver:options"); try done;
       repeat split;
       destruct (GetString cfg "driver:name"), (GetString cfg "name"),
         (GetString cfg "docker-hub-mirror"), (GetString cfg "ca-path"),
         (GetInt cfg "hosts:core:size"), (GetInt cfg "hosts:apps:size"),
         (GetBool cfg "hosts:apps:dedicated"); reflexivity).
  - intros Hcore Happs.
    destruct (getOrNil cfg "driver:options"); try done;
      (unfold mbind at 1, stateful_bind at 1; cbn [mret stateful_ret modify];
       rewrite !bind_whenOk;
       destruct (getOrNil cfg "hosts:core:driver:options"); try done;
       destruct (getOrNil cfg "hosts:apps:driver:options"); try done;
       repeat split;
       destruct (GetString cfg "driver:name"), (GetString cfg "name"),
         (GetString cfg "docker-hub-mirror"), (GetString cfg "ca-path"),
         (GetInt cfg "hosts:core:size"), (GetInt cfg "hosts:apps:size"),
         (GetBool cfg "hosts:apps:dedicated"); reflexivity).
Qed.

Ltac run_step :=
  unfold mbind at 1, stateful_bind at 1;
  cbn [mret stateful_ret modify assignParsed parseDriverOptsSlice failWith
       panicWith getState fst snd];
  rewrite ?bind_whenOk.

(** When a readable file resolves to a plan. *)
Lemma parseConfigFile_succeeds (file : string) (cfg : ConfigData)
    (s : TsuruInstallConfig) :
  file ≠ "" → ReadConfigFile file = inl cfg →
  (∃ plan, (resolve file s).1 = Ok plan)
  ↔ mappingOrNil (getOrNil cfg "driver:options") ∧
    mappingOrNil (getOrNil cfg "hosts:core:driver:options") ∧
    mappingOrNil (getOrNil cfg "hosts:apps:driver:options").
Proof.
  intros Hfile Hread. unfold parseConfigFile.
  rewrite decide_False by done. rewrite Hread, !bind_whenOk.
  destruct (getOrNil cfg "driver:options");
    try (split; [by intros [plan Hplan] | by intros (? & _)]);
    run_step;
    (destruct (getOrNil cfg "hosts:core:driver:options");
     try (split; [by intros [plan Hplan] | by intros (_ & ? & _)]);
     run_step; run_step;
     (destruct (getOrNil cfg "hosts:apps:driver:options");
      try (split; [by intros [plan Hplan] | by intros (_ & _ & ?)]);
      (split; [done | intros _; eexists; reflexivity]))).
Qed.

(** X21.  For a file that can be read, whether the resolver returns a
    plan does not depend on the shared plan it starts from: it returns one
    exactly when each of the three options blocks — [driver:options] and
    the per-index options of core and apps hosts — is a mapping or is
    absent. *)
Theorem parseConfigFile_succeeds_iff (file : string) (cfg : ConfigData)
    (s : TsuruInstallConfig) :
  file ≠ "" → ReadConfigFile file = inl cfg →
  (∃ plan, (resolve file s).1 = Ok plan)
  ↔ mappingOrNil (getOrNil cfg "driver:options") ∧
    mappingOrNil (getOrNil cfg "hosts:core:driver:options") ∧
    mappingOrNil (getOrNil cfg "hosts:apps:driver:options").
Proof. exact (parseConfigFile_succeeds file cfg s). Qed.

Lemma TsuruInstallConfig_ext (a b : TsuruInstallConfig) :
  dm.cfgDriverName (DockerMachineConfig a) = dm.cfgDriverName (DockerMachineConfig b) →
  dm.cfgDriverOpts (DockerMachineConfig a) = dm.cfgDriverOpts (DockerMachineConfig b) →
  dm.cfgCAPath (DockerMachineConfig a) = dm.cfgCAPath (DockerMachineConfig b) →
  dm.cfgName (DockerMachineConfig a) = dm.cfgName (DockerMachineConfig b) →
  dm.cfgDockerHubMirror (DockerMachineConfig a)
    = dm.cfgDockerHubMirror (DockerMachineConfig b) →
  ComponentsConfig_ a = ComponentsConfig_ b →
  CoreHosts a = CoreHosts b → CoreDriversOpts a = CoreDriversOpts b →
  AppsHosts a = AppsHosts b → DedicatedAppsHosts a = DedicatedAppsHosts b →
  AppsDriversOpts a = AppsDriversOpts b →
  a = b.
Proof.
  destruct a as [[] ? ? ? ? ? ?], b as [[] ? ? ? ? ? ?]. simpl.
  intros. by subst.
Qed.

(** X22.  Resolving is idempotent on the shared plan: when a call
    returns a plan, a second call for the same file, started from the
    plan the first one left, returns the same plan and leaves it as it
    is. *)
Theorem parseConfigFile_idempotent (file : string) (s plan : TsuruInstallConfig) :
  (resolve file s).1 = Ok plan → resolve file plan = (Ok plan, plan).
Proof.
  intros Hplan.
  destruct (decide (file = "")) as [-> | Hfile].
  { unfold parseConfigFile in *. by rewrite decide_True in * by done. }
  destruct (ReadConfigFile file) as [cfg | e] eqn:Hread.
  2: { unfold parseConfigFile in Hplan.
       rewrite decide_False in Hplan by done. by rewrite Hread in Hplan. }
  destruct (proj1 (parseConfigFile_succeeds file cfg s Hfile Hread))
    as (Hd & Hc & Ha); [by exists plan |].
  destruct (proj2 (parseConfigFile_succeeds file cfg plan Hfile Hread))
    as [plan2 Hplan2]; [done |].
  destruct (parseConfigFile_assigned file cfg s plan Hfile Hread Hplan)
    as (_ & A1 & A2 & A3 & A4 & A5 & A6 & A7 & A8 & A9 & A10 & _).
  destruct (parseConfigFile_assigned file cfg plan plan2 Hfile Hread Hplan2)
    as (Hstate & B1 & B2 & B3 & B4 & B5 & B6 & B7 & B8 & B9 & B10 & B11).
  destruct (parseConfigFile_untouched file cfg plan Hread)
    as (U1 & U2 & U3 & U4 & U5 & U6 & U7 & U8 & U9 & U10).
  rewrite <- Hstate in U1, U2, U3, U4, U5, U6, U7, U8, U9, U10.
  assert (dm.cfgName (DockerMachineConfig plan2)
          = dm.cfgName (DockerMachineConfig plan)) as Hname.
  { destruct (GetString cfg "name") as [x | e]; [| by eauto].
    by rewrite (A2 x), (B2 x). }
  assert (plan2 = plan) as ->.
  { apply TsuruInstallConfig_ext.
    - destruct (GetString cfg "driver:name") as [x | e]; [| by eauto].
      by rewrite (A1 x), (B1 x).
    - destruct (getOrNil cfg "driver:options") as [| | | | |m]; try done;
        [by apply U5 | by rewrite (A4 m), (B4 m)].
    - destruct (GetString cfg "ca-path") as [x | e]; [| by eauto].
      by rewrite (A5 x), (B5 x).
    - exact Hname.
    - destruct (GetString cfg "docker-hub-mirror") as [x | e]; [| by eauto].
      by rewrite (A3 x), (B3 x).
    - rewrite B11, Hname.
      destruct (parseConfigFile_assigned file cfg s plan Hfile Hread Hplan)
        as (_ & _ & _ & _ & _ & _ & _ & _ & _ & _ & _ & A11).
      by rewrite A11.
    - destruct (GetInt cfg "hosts:core:size") as [x | e]; [| by eauto].
      by rewrite (A6 x), (B6 x).
    - destruct (getOrNil cfg "hosts:core:driver:options") as [| | | | |m];
        try done; [by apply U9 | by rewrite (A9 m), (B9 m)].
    - destruct (GetInt cfg "hosts:apps:size") as [x | e]; [| by eauto].
      by rewrite (A7 x), (B7 x).
    - destruct (GetBool cfg "hosts:apps:dedicated") as [x | e]; [| by eauto].
      by rewrite (A8 x), (B8 x).
    - destruct (getOrNil cfg "hosts:apps:driver:options") as [| | | | |m];
        try done; [by apply U10 | by rewrite (A10 m), (B10 m)]. }
  destruct (resolve file plan) as [r st]. simpl in *. by subst.
Qed.

End ResolverMore.

(** ** More on the allocator and the apps pool *)

Lemma selectOptsIn_never_Err (i : Z) (entries : list (string * list value))
    (opts : DriverOpts) (e : string) :
  selectOptsIn i entries opts ≠ Err e.
Proof.
  revert opts. induction entries as [|[k v] rest IH]; intros opts; [done |].
  simpl. case_decide; [done |]. destruct (index v _); [apply IH | done].
Qed.

Section AllocatorMore.

Context `{dm.MachineProvisioner P}.

(** Every run of the loop, with or without the plan's invariant: the log
    grows by provisioner calls, at most one per index, and what is
    returned tells how the calls went. *)
Lemma provisionEach_trace (idxs : list Z) (configs : gmap string (list value))
    (machines : list Machine) (w : logged P) :
  ∃ steps,
    (provisionEach idxs configs machines w).2.2 = w.2 ++ callsOf steps ∧
    (length steps ≤ length idxs)%nat ∧
    match (provisionEach idxs configs machines w).1 with
    | Ok ms => ∃ fresh, ms = machines ++ fresh ∧ steps.*2 = inl <$> fresh ∧
                        length fresh = length idxs
    | Err e => ∃ fresh cause, steps.*2 = (inl <$> fresh) ++ [inr cause] ∧
                              e = "failed to provision machines: " +:+ cause
    | Panic _ => ∃ fresh, steps.*2 = inl <$> fresh
    end.
Proof.
  revert machines w. induction idxs as [|i rest IH]; intros machines w.
  - exists []. simpl. rewrite app_nil_r. repeat split; try done.
    exists []. by rewrite app_nil_r.
  - cbn [provisionEach].
    destruct (selectOpts i configs) as [opts | e | pn] eqn:Hsel.
    + unfold callProvisionMachine.
      destruct (dm.ProvisionMachine opts w.1) as [[m | err] p'] eqn:Hcall.
      * destruct (IH (machines ++ [m]) (p', w.2 ++ [dm.CallProvision opts (inl m)]))
          as (steps & Hlog & Hlen & Hret).
        exists ((opts, inl m) :: steps). split; [| split].
        -- rewrite Hlog. cbn. by rewrite <- app_assoc.
        -- cbn [length]. lia.
        -- destruct (provisionEach rest configs _ _).1 as [ms | e | pn].
           ++ destruct Hret as (fresh & -> & Hans & Hfresh).
              exists (m :: fresh). rewrite <- app_assoc. csimpl.
              rewrite Hans. repeat split; try done. lia.
           ++ destruct Hret as (fresh & cause & Hans & ->).
              exists (m :: fresh), cause. csimpl. by rewrite Hans.
           ++ destruct Hret as (fresh & Hans).
              exists (m :: fresh). csimpl. by rewrite Hans.
      * exists [(opts, inr err)]. cbn. repeat split; try done; [lia |].
        by exists [], err.
    + by apply selectOptsIn_never_Err in Hsel.
    + exists []. cbn. rewrite app_nil_r. repeat split; try done; [lia |].
      by exists [].
Qed.

(** X8.  [ProvisionMachines] faults only before its first provisioner
    call: whenever it faults, the fault is a division by zero caused by
    an empty option list, the count is at least one, no call has been
    made and the provisioner is as it was. *)
Theorem ProvisionMachines_faults_before_any_call (numMachines : Z)
    (configs : gmap string (list value)) (w : logged P) (pn : panic) :
  (ProvisionMachines numMachines configs w).1 = Panic pn →
  pn = DivideByZero ∧
  (ProvisionMachines numMachines configs w).2 = w ∧
  1 ≤ numMachines ∧
  ∃ k, configs !! k = Some [].
Proof.
  intros Hpanic.
  destruct (decide (nonEmptyLists configs)) as [Hne | Hne].
  - destruct (ProvisionMachines_run numMachines configs w Hne)
      as (steps & _ & _ & _ & Hret).
    by rewrite Hpanic in Hret.
  - apply map_not_Forall in Hne; [| apply _].
    destruct Hne as (k & v & Hk & Hv).
    assert (v = []) as -> by (by destruct (decide (v = []))).
    destruct (decide (1 ≤ numMachines)) as [Hn | Hn].
    + rewrite (ProvisionMachines_faults numMachines configs w k Hn Hk) in Hpanic |- *.
      simpl in Hpanic. injection Hpanic as <-. eauto.
    + unfold ProvisionMachines in Hpanic.
      rewrite seqZ_nil in Hpanic by lia. done.
Qed.

(** X9.  [ProvisionPool] only ever adds provisioner calls to the log — no
    [DeleteAll], no [Close] — and never more than it needs: at most
    [appsHosts] calls, and for a plan that is not dedicated at most
    [appsHosts - len(coreMachines)], that is none when the core machines
    suffice. *)
Theorem ProvisionPool_call_bound (config : TsuruInstallConfig)
    (coreMachines : list Machine) (w : logged P) :
  ∃ steps,
    (ProvisionPool config coreMachines w).2.2 = w.2 ++ callsOf steps ∧
    (length steps ≤ Z.to_nat (AppsHosts config))%nat ∧
    (DedicatedAppsHosts config = false →
       (length steps
        ≤ Z.to_nat (AppsHosts config - Z.of_nat (length coreMachines)))%nat).
Proof.
  unfold ProvisionPool, ProvisionMachines.
  destruct (DedicatedAppsHosts config).
  - destruct (provisionEach_trace (seqZ 0 (AppsHosts config))
                (mapOf (AppsDriversOpts config)) [] w) as (steps & Hlog & Hlen & _).
    rewrite length_seqZ in Hlen. exists steps. by repeat split.
  - case_decide.
    + destruct (provisionEach_trace
                  (seqZ 0 (AppsHosts config - Z.of_nat (length coreMachines)))
                  (mapOf (AppsDriversOpts config)) [] w) as (steps & Hlog & Hlen & _).
      rewrite length_seqZ in Hlen. exists steps.
      destruct (provisionEach _ _ _ _) as [[ms | e | pn] w']; simpl in *;
        (split; [done |]; split; [lia | intros _; lia]).
    + exists []. simpl. rewrite app_nil_r. repeat split; try done; simpl; lia.
Qed.

(** X10.  When [ProvisionPool] returns an error, a provisioner call
    failed and was the last call made; the machines provisioned before it
    are not returned and no call undoes them.  The error is the cause
    wrapped once for a dedicated plan and twice for a plan that is not. *)
Theorem ProvisionPool_error (config : TsuruInstallConfig)
    (coreMachines : list Machine) (w : logged P) (e : string) :
  (ProvisionPool config coreMachines w).1 = Err e →
  ∃ steps provisioned cause,
    (ProvisionPool config coreMachines w).2.2 = w.2 ++ callsOf steps ∧
    steps.*2 = (inl <$> provisioned) ++ [inr cause] ∧
    e = (if DedicatedAppsHosts config then ""
         else "failed to provision pool hosts: ")
        +:+ "failed to provision machines: " +:+ cause.
Proof.
  unfold ProvisionPool, ProvisionMachines.
  destruct (DedicatedAppsHosts config).
  - intros Herr.
    destruct (provisionEach_trace (seqZ 0 (AppsHosts config))
                (mapOf (AppsDriversOpts config)) [] w) as (steps & Hlog & _ & Hret).
    rewrite Herr in Hret. destruct Hret as (fresh & cause & Hans & ->).
    by exists steps, fresh, cause.
  - case_decide.
    + destruct (provisionEach_trace
                  (seqZ 0 (AppsHosts config - Z.of_nat (length coreMachines)))
                  (mapOf (AppsDriversOpts config)) [] w) as (steps & Hlog & _ & Hret).
      destruct (provisionEach _ _ _ _) as [[ms | e' | pn] w']; simpl in *; try done.
      intros [= <-]. destruct Hret as (fresh & cause & Hans & ->).
      by exists steps, fresh, cause.
    + unfold sliceTo. by case_decide.
Qed.

End AllocatorMore.

Section OpenPort.

Context `{dm.MachineProvisioner P}.

Variable defaultTsuruAPIPort : Z.
Variable strconv_Itoa : Z → string.


End OpenPort.

(** ** More on the host registrar *)

Section RegistrationMore.

Variable GetURLVersion : string → string → result string.
Variable json_Marshal : value → result string.
Variable ReadFile : string → string * option string.
Variable filepath_Join : string → string → string.
Variable url_Parse : string → option string.

Context `{Client K}.

Local Abbreviation registrationOf :=
  (registration json_Marshal ReadFile filepath_Join).
Local Abbreviation addHost :=
  (addInstallHost json_Marshal ReadFile filepath_Join url_Parse).
Local Abbreviation addHostsFrom :=
  (addInstallHostsFrom json_Marshal ReadFile filepath_Join url_Parse).

(** The three ways the registration of one machine can go. *)
Lemma addInstallHost_cases (path : string) (m : Machine) (st : registrar K) :
  (∃ e, json_Marshal (dm.Driver m) = inr e ∧ addHost path m st = (Some e, st)) ∨
  (∃ e, registrationOf path m ≠ None ∧ url_Parse path = Some e ∧
        (addHost path m st).1 = Some e ∧
        sent (addHost path m st).2 = sent st ∧
        client (addHost path m st).2 = client st) ∨
  (∃ req r k', registrationOf path m = Some req ∧
               Do req (client st) = (r, k') ∧
               (addHost path m st).1
                 = match r with inl _ => None | inr e => Some e end ∧
               sent (addHost path m st).2 = sent st ++ [req] ∧
               client (addHost path m st).2 = k').
Proof.
  unfold registration, addInstallHost, readOrWarn.
  destruct (json_Marshal (dm.Driver m)) as [rawDriver | e]; [| left; eauto].
  right. unfold http_NewRequest.
  destruct (url_Parse path) as [e |] eqn:Hurl.
  - left. exists e.
    destruct (ReadFile (dm.SSHKeyPath m)) as [d1 [e1 |]];
      destruct (ReadFile (filepath_Join (dm.CAPath m) "ca.pem")) as [d2 [e2 |]];
      destruct (ReadFile (filepath_Join (dm.CAPath m) "ca-key.pem")) as [d3 [e3 |]];
      done.
  - right. unfold callDo, Header_Set, hostForm.
    cbn [reqMethod reqURL reqForm reqHeader]. rewrite insert_empty.
    destruct (ReadFile (dm.SSHKeyPath m)) as [d1 [e1 |]];
      destruct (ReadFile (filepath_Join (dm.CAPath m) "ca.pem")) as [d2 [e2 |]];
      destruct (ReadFile (filepath_Join (dm.CAPath m) "ca-key.pem")) as [d3 [e3 |]];
      cbn [fst snd client Printf printed sent];
      (eexists _, _, _; split; [reflexivity |];
       split; [apply surjective_pairing |];
       by destruct (Do _ _) as [[[] | e] k']).
Qed.

Lemma addInstallHostsFrom_trace (path : string) (machines : list Machine)
    (st : registrar K) :
  ∃ steps,
    sent (addHostsFrom path machines st).2 = sent st ++ steps.*1 ∧
    submitted (client st) steps (client (addHostsFrom path machines st).2) ∧
    Forall2 (λ m r, registrationOf path m = Some r)
            (take (length steps) machines) steps.*1 ∧
    match (addHostsFrom path machines st).1 with
    | None => length steps = length machines ∧ Forall accepted steps
    | Some e =>
        (∃ before r, steps = before ++ [(r, inr e)] ∧ Forall accepted before) ∨
        (Forall accepted steps ∧
         ∃ m, machines !! length steps = Some m ∧
              (json_Marshal (dm.Driver m) = inr e ∨ url_Parse path = Some e))
    end.
Proof.
  revert st. induction machines as [|m rest IH]; intros st.
  - exists []. cbn. rewrite app_nil_r.
    split; [done |]. split; [done |]. split; [constructor |]. by split.
  - cbn [addInstallHostsFrom].
    destruct (addInstallHost_cases path m st)
      as [(e & Hraw & Hrun) | [(e & _ & Hurl & Hres & Hsent & Hclient)
                              | (req & r & k' & Hreq & HDo & Hres & Hsent & Hclient)]].
    + rewrite Hrun. exists []. cbn. rewrite app_nil_r.
      split; [done |]. split; [done |]. split; [constructor |].
      right. split; [constructor |]. exists m. split; [done | by left].
    + destruct (addHost path m st) as [res1 st1]. simpl in *. subst res1.
      exists []. cbn. rewrite app_nil_r.
      split; [done |]. split; [done |]. split; [constructor |].
      right. split; [constructor |]. exists m. split; [done | by right].
    + destruct (addHost path m st) as [res1 st1]. simpl in *. subst res1.
      destruct r as [[] | e].
      * destruct (IH st1) as (steps & Hsent' & Hsub & Hall & Hres').
        exists ((req, inl tt) :: steps). split; [| split; [| split]].
        -- rewrite Hsent', Hsent. csimpl. by rewrite <- app_assoc.
        -- cbn. exists k'. split; [done |]. by rewrite <- Hclient.
        -- cbn [length take]. rewrite fmap_cons. by constructor.
        -- destruct (addHostsFrom path rest st1).1 as [e |].
           ++ destruct Hres' as [(before & r & -> & Hacc)
                                | (Hacc & m' & Hm' & Hwhy)].
              ** left. exists ((req, inl tt) :: before), r.
                 split; [done |]. by constructor.
              ** right. split; [by constructor |]. by exists m'.
           ++ destruct Hres' as [Hlen Hacc]. split; [cbn; lia | by constructor].
      * exists [(req, inr e)]. cbn.
        split; [done |]. split; [| split].
        -- exists k'. split; [done |]. by rewrite <- Hclient.
        -- constructor; [done | constructor].
        -- left. exists [], req. split; [done | constructor].
Qed.

(** X12.  [addInstallHosts] sends nothing when the versioned URL is not
    available.  Otherwise it sends, in the order of the machines, the
    registration of each machine of a prefix of the list and nothing
    else.  It returns no error only when every machine has been
    registered and every request accepted.  It returns an error either
    because the client refused the last request it sent, or because the
    next machine's descriptor could not be serialized or the URL is
    malformed; in both cases the machines that follow get no request. *)
Theorem addInstallHosts_stops_at_first_failure (machines : list Machine)
    (st : registrar K) :
  let run := addInstallHosts GetURLVersion json_Marshal ReadFile filepath_Join
                             url_Parse machines st in
  match GetURLVersion "1.3" "/install/hosts" with
  | inr e => run = (Some e, st)
  | inl path =>
      ∃ steps,
        sent run.2 = sent st ++ steps.*1 ∧
        submitted (client st) steps (client run.2) ∧
        Forall2 (λ m r, registrationOf path m = Some r)
                (take (length steps) machines) steps.*1 ∧
        match run.1 with
        | None => length steps = length machines ∧ Forall accepted steps
        | Some e =>
            (∃ before r, steps = before ++ [(r, inr e)] ∧ Forall accepted before) ∨
            (Forall accepted steps ∧
             ∃ m, machines !! length steps = Some m ∧
                  (json_Marshal (dm.Driver m) = inr e ∨ url_Parse path = Some e))
        end
  end.
Proof.
  cbv zeta. unfold addInstallHosts.
  destruct (GetURLVersion "1.3" "/install/hosts") as [path | e]; [| done].
  apply addInstallHostsFrom_trace.
Qed.

Local Abbreviation quiet := (quietly ReadFile).

Lemma addInstallHost_quietly (path : string) (m : Machine) (st st' : registrar K) :
  client st = client st' → sent st = sent st' →
  (addHost path m st).1
    = (addInstallHost json_Marshal quiet filepath_Join url_Parse path m st').1 ∧
  client (addHost path m st).2
    = client (addInstallHost json_Marshal quiet filepath_Join url_Parse path m st').2 ∧
  sent (addHost path m st).2
    = sent (addInstallHost json_Marshal quiet filepath_Join url_Parse path m st').2 ∧
  printed (addInstallHost json_Marshal quiet filepath_Join url_Parse path m st').2
    = printed st'.
Proof.
  intros Hclient Hsent. unfold addInstallHost, readOrWarn, quietly.
  destruct (json_Marshal (dm.Driver m)) as [rawDriver | e]; [| done].
  unfold http_NewRequest. destruct (url_Parse path) as [e |].
  - destruct (ReadFile (dm.SSHKeyPath m)) as [d1 [e1 |]];
      destruct (ReadFile (filepath_Join (dm.CAPath m) "ca.pem")) as [d2 [e2 |]];
      destruct (ReadFile (filepath_Join (dm.CAPath m) "ca-key.pem")) as [d3 [e3 |]];
      done.
  - unfold callDo.
    destruct (ReadFile (dm.SSHKeyPath m)) as [d1 [e1 |]];
      destruct (ReadFile (filepath_Join (dm.CAPath m) "ca.pem")) as [d2 [e2 |]];
      destruct (ReadFile (filepath_Join (dm.CAPath m) "ca-key.pem")) as [d3 [e3 |]];
      cbn [fst snd client Printf printed sent];
      rewrite <- Hclient, <- Hsent;
      by destruct (Do _ _) as [[[] | e] k'].
Qed.

(** X13.  File read errors are never fatal to [addInstallHosts]: with the
    same bytes read and no read error at all, it returns the same result,
    sends the same requests and leaves the client in the same state; a
    read error only adds a warning to what is printed, and without read
    errors nothing is printed. *)
Theorem addInstallHosts_read_errors_not_fatal (machines : list Machine)
    (st : registrar K) :
  let run := addInstallHosts GetURLVersion json_Marshal ReadFile filepath_Join
                             url_Parse machines st in
  let quietRun := addInstallHosts GetURLVersion json_Marshal quiet filepath_Join
                               url_Parse machines st in
  run.1 = quietRun.1 ∧ sent run.2 = sent quietRun.2 ∧
  client run.2 = client quietRun.2 ∧ printed quietRun.2 = printed st.
Proof.
  cbv zeta. unfold addInstallHosts.
  destruct (GetURLVersion "1.3" "/install/hosts") as [path | e]; [| done].
  assert (∀ st st' : registrar K,
            client st = client st' → sent st = sent st' →
            (addHostsFrom path machines st).1
              = (addInstallHostsFrom json_Marshal quiet filepath_Join url_Parse
                                     path machines st').1 ∧
            sent (addHostsFrom path machines st).2
              = sent (addInstallHostsFrom json_Marshal quiet filepath_Join
                                          url_Parse path machines st').2 ∧
            client (addHostsFrom path machines st).2
              = client (addInstallHostsFrom json_Marshal quiet filepath_Join
                                            url_Parse path machines st').2 ∧
            printed (addInstallHostsFrom json_Marshal quiet filepath_Join
                                         url_Parse path machines st').2
              = printed st') as Hgen.
  { induction machines as [|m rest IH]; intros st1 st2 Hclient Hsent; [done |].
    cbn [addInstallHostsFrom].
    destruct (addInstallHost_quietly path m st1 st2 Hclient Hsent)
      as (Hres & Hclient' & Hsent' & Hprinted).
    destruct (addHost path m st1) as [r1 st1'].
    destruct (addInstallHost _ quiet _ _ path m st2) as [r2 st2'].
    simpl in *. subst r2. destruct r1 as [e |]; [done |].
    destruct (IH st1' st2' Hclient' Hsent') as (? & ? & ? & Hp).
    repeat split; try done. by rewrite Hp. }
  by apply Hgen.
Qed.

End RegistrationMore.

(** ** Which machines are registered *)

Lemma NoDup_names_inj (machines : list Machine) (x y : Machine) :
  NoDup (dm.Name <$> machines) → x ∈ machines → y ∈ machines →
  dm.Name x = dm.Name y → x = y.
Proof.
  intros Hnd Hx Hy Hname.
  apply list_elem_of_split in Hx as (l1 & l2 & ->).
  rewrite fmap_app, fmap_cons in Hnd.
  apply NoDup_app in Hnd as (_ & Hdisj & Hnd2).
  apply NoDup_cons in Hnd2 as [Hnotin _].
  apply elem_of_app in Hy as [Hy | Hy].
  - exfalso. apply (Hdisj (dm.Name y)).
    + apply list_elem_of_fmap. by exists y.
    + rewrite Hname. by left.
  - apply elem_of_cons in Hy as [-> | Hy]; [done |].
    exfalso. apply Hnotin. rewrite Hname. apply list_elem_of_fmap. by exists y.
Qed.

Lemma rangeOf_elem_of (coreMachines appsMachines uniqueMachines : list Machine)
    (x : Machine) :
  rangeOf (Run_machineIndex coreMachines appsMachines) uniqueMachines →
  x ∈ uniqueMachines
  ↔ lastNamed (dm.Name x) (coreMachines ++ appsMachines) = Some x.
Proof.
  intros Hrange. rewrite Hrange. split.
  - intros ([k m] & -> & Hkm)%list_elem_of_fmap.
    apply elem_of_map_to_list in Hkm. rewrite Run_machineIndex_lookup in Hkm.
    pose proof (lastNamed_Some _ _ _ Hkm) as [<- _]. done.
  - intros Hlast. apply list_elem_of_fmap. exists (dm.Name x, x).
    split; [done |]. apply elem_of_map_to_list.
    by rewrite Run_machineIndex_lookup.
Qed.

(** When the machines at hand are those of a list with distinct names,
    the machines registered are those of that list. *)
Lemma rangeOf_distinct (coreMachines appsMachines uniqueMachines base : list Machine) :
  rangeOf (Run_machineIndex coreMachines appsMachines) uniqueMachines →
  NoDup (dm.Name <$> base) →
  (∀ x, x ∈ coreMachines ++ appsMachines ↔ x ∈ base) →
  uniqueMachines ≡ₚ base.
Proof.
  intros Hrange Hnd Hsame.
  apply NoDup_Permutation.
  - eapply NoDup_fmap_1, rangeOf_NoDup. done.
  - by eapply NoDup_fmap_1.
  - intros x. rewrite (rangeOf_elem_of _ _ _ x Hrange). split.
    + intros Hlast. apply Hsame. by apply lastNamed_Some in Hlast as [_ ?].
    + intros Hx.
      destruct (lastNamed_is_Some (dm.Name x) (coreMachines ++ appsMachines) x)
        as [y Hy]; [by apply Hsame | done |].
      pose proof (lastNamed_Some _ _ _ Hy) as [Hname Hin].
      rewrite Hy. f_equal.
      apply (NoDup_names_inj base); [done | by apply Hsame | done | done].
Qed.

(** X14.  Whatever order the index is visited in, the machines [Run]
    registers are machines of the core or apps pool, never more than
    there are; when all names differ, they are all the machines of both
    pools, each once. *)
Theorem Run_uniqueMachines_cover
    (coreMachines appsMachines uniqueMachines : list Machine) :
  rangeOf (Run_machineIndex coreMachines appsMachines) uniqueMachines →
  (∀ m, m ∈ uniqueMachines → m ∈ coreMachines ++ appsMachines) ∧
  (length uniqueMachines ≤ length (coreMachines ++ appsMachines))%nat ∧
  (NoDup (dm.Name <$> coreMachines ++ appsMachines) →
     uniqueMachines ≡ₚ coreMachines ++ appsMachines).
Proof.
  intros Hrange.
  assert (∀ m, m ∈ uniqueMachines → m ∈ coreMachines ++ appsMachines) as Hsub.
  { intros m Hm. apply (rangeOf_elem_of _ _ _ m Hrange) in Hm.
    by apply lastNamed_Some in Hm as [_ ?]. }
  split; [done |]. split.
  - apply submseteq_length, NoDup_submseteq; [| done].
    eapply NoDup_fmap_1, rangeOf_NoDup. done.
  - intros Hnd. by apply (rangeOf_distinct coreMachines appsMachines).
Qed.

(** X15.  Reuse.  For a plan that is not dedicated and asks for no more
    apps hosts than there are core machines (and not a negative number),
    the apps pool is made of core machines, no provisioner call is made,
    and with distinct core names the hosts registered by [Run] are the
    core machines, each once. *)
Theorem reused_core_machines_are_registered_once `{dm.MachineProvisioner P}
    (config : TsuruInstallConfig) (coreMachines uniqueMachines : list Machine)
    (w : logged P) :
  DedicatedAppsHosts config = false →
  0 ≤ AppsHosts config ≤ Z.of_nat (length coreMachines) →
  NoDup (dm.Name <$> coreMachines) →
  ∃ appsMachines,
    ProvisionPool config coreMachines w = (Ok appsMachines, w) ∧
    (∀ m, m ∈ appsMachines → m ∈ coreMachines) ∧
    (rangeOf (Run_machineIndex coreMachines appsMachines) uniqueMachines →
       uniqueMachines ≡ₚ coreMachines).
Proof.
  intros Hded Hsize Hnd.
  exists (take (Z.to_nat (AppsHosts config)) coreMachines).
  assert (∀ m, m ∈ take (Z.to_nat (AppsHosts config)) coreMachines →
               m ∈ coreMachines) as Hsub by apply subseteq_take.
  split; [| split; [done |]].
  - unfold ProvisionPool, sliceTo. rewrite Hded, decide_False by lia.
    by rewrite decide_True by lia.
  - intros Hrange.
    apply (rangeOf_distinct coreMachines _ _ coreMachines Hrange Hnd).
    intros x. rewrite elem_of_app. split; [intros [? | ?]; auto | by left].
Qed.

(** ** What the component loop prints *)

(** X16.  The component loop prints one ["Installing <name>"] line before
    each install it makes and one ["<name> successfully installed!"] line
    after each install that succeeds, in that order and nothing else; so
    when the loop stops on a failure the last line printed announces the
    failing component. *)
Theorem Run_installComponents_progress {C}
    (components : list (TsuruComponent C)) (cfg : ComponentsConfig)
    (st : installRun C) :
  ∃ installs,
    componentCalls (Run_installComponents components cfg st).2
      = componentCalls st ++ installCallsOf cfg installs ∧
    stdout (Run_installComponents components cfg st).2
      = stdout st ++ progressOf installs ∧
    match (Run_installComponents components cfg st).1 with
    | None => installs = succeeded components
    | Some _ =>
        ∃ before failing cause,
          installs = succeeded before ++ [(failing, Some cause)] ∧
          last (stdout (Run_installComponents components cfg st).2)
            = Some ("Installing " +:+ Name failing +:+ nl)
    end.
Proof.
  revert st. induction components as [|component rest IH]; intros st.
  - exists []. cbn. by rewrite !app_nil_r.
  - cbn [Run_installComponents]. unfold callInstall. cbn [cluster Fprintf stdout].
    destruct (Install component (cluster st) cfg) as [[cause |] cl'] eqn:Hinst.
    + exists [(component, Some cause)]. cbn.
      split; [done |]. split; [done |].
      exists [], component, cause. split; [done |]. by rewrite last_snoc.
    + match goal with
      | |- context [Run_installComponents rest cfg ?st1] =>
          destruct (IH st1) as (installs & Hcalls & Hout & Hres)
      end.
      exists ((component, None) :: installs).
      split; [| split].
      * rewrite Hcalls. cbn. by rewrite <- app_assoc.
      * rewrite Hout. cbn [stdout]. unfold progressOf. rewrite bind_cons.
        cbn. by rewrite <- !app_assoc.
      * destruct (Run_installComponents rest cfg _).1 as [e |].
        -- destruct Hres as (before & failing & cause & -> & Hlast).
           by exists (component :: before), failing, cause.
        -- by rewrite Hres.
Qed.

(** ** The overview tables *)

Lemma componentRows_rows {C} (Itoa : Z → string)
    (components : list (TsuruComponent C)) (t : Table)
    (w : C * list componentCall) :
  ∃ rows,
    Rows (componentRows Itoa components t w).1 = Rows t ++ rows ∧
    Headers (componentRows Itoa components t w).1 = Headers t ∧
    LineSeparator (componentRows Itoa components t w).1 = LineSeparator t ∧
    Forall2 (λ c row, ∃ ports replicas, row = [Name c; ports; replicas])
            components rows ∧
    (componentRows Itoa components t w).2.2
      = w.2 ++ ((λ c, CallStatus (Name c)) <$> components).
Proof.
  revert t w. induction components as [|component rest IH]; intros t w.
  - exists []. cbn. rewrite !app_nil_r.
    split; [done |]. split; [done |]. split; [done |]. split; [constructor | done].
  - cbn [componentRows]. unfold callStatus.
    destruct (Status component w.1) as [[info | err] cl'];
      match goal with
      | |- context [componentRows Itoa rest ?t1 ?w1] =>
          destruct (IH t1 w1) as (rows & Hrows & Hhead & Hsep & Hall & Hcalls)
      end;
      eexists (_ :: rows);
      (split; [rewrite Hrows; cbn; by rewrite <- app_assoc |]);
      (split; [by rewrite Hhead |]); (split; [by rewrite Hsep |]);
      (split; [constructor; [by eexists _, _ | done] |]);
      rewrite Hcalls; cbn; by rewrite <- app_assoc.
Qed.

(** X17.  The components table has the three headers and one row per
    component of the catalog, in catalog order; each row has three cells
    and starts with the component's name, also when the status of a
    component cannot be read; every component is asked for its status
    once, in order. *)
Theorem buildComponentsTable_rows {C} (Itoa : Z → string)
    (components : list (TsuruComponent C)) (w : C * list componentCall) :
  Headers (buildComponentsTable Itoa components w).1
    = ["Component"; "Ports"; "Replicas"] ∧
  LineSeparator (buildComponentsTable Itoa components w).1 = true ∧
  Forall2 (λ c row, ∃ ports replicas, row = [Name c; ports; replicas])
          components (Rows (buildComponentsTable Itoa components w).1) ∧
  (buildComponentsTable Itoa components w).2.2
    = w.2 ++ ((λ c, CallStatus (Name c)) <$> components).
Proof.
  unfold buildComponentsTable.
  destruct (componentRows_rows Itoa components
              {| Headers := ["Component"; "Ports"; "Replicas"];
                 LineSeparator := true; Rows := [] |} w)
    as (rows & Hrows & Hhead & Hsep & Hall & Hcalls).
  rewrite Hrows, Hhead, Hsep, Hcalls. by repeat split.
Qed.

Lemma nodeRows_fold (nodes : list NodeInfo) (t : Table) :
  Rows (foldl (λ t n, AddRow [IP n; State n; strconv_FormatBool (Manager n)] t)
              t nodes)
  = Rows t ++ (nodeRow <$> nodes).
Proof.
  revert t. induction nodes as [|n rest IH]; intros t.
  - cbn. by rewrite app_nil_r.
  - cbn [foldl]. rewrite IH. cbn. by rewrite <- app_assoc.
Qed.

(** X18.  The members table lists every member the cluster reports, one
    row each in the order reported, also when the report comes with an
    error; in that case a single-cell row with the error comes first. *)
Theorem buildClusterTable_rows `{ServiceCluster C} (cluster : C) :
  Rows (buildClusterTable cluster).1
  = match (ClusterInfo cluster).1.2 with
    | Some e => [["failed to retrieve cluster info: " +:+ e]]
    | None => []
    end ++ (nodeRow <$> (ClusterInfo cluster).1.1).
Proof.
  unfold buildClusterTable.
  destruct (ClusterInfo cluster) as [[nodes [e |]] cl']; cbn [fst snd];
    by rewrite nodeRows_fold.
Qed.

(** ** The firewall workaround *)

(** X19.  The firewall workaround runs its two commands on every core
    machine, in the order of the machines, whether or not commands fail:
    a failure stops nothing and adds one warning to the error output, and
    nothing else is printed. *)
Theorem Run_iptablesWorkaround_runs_all `{SSHRunner R}
    (coreMachines : list Machine) (st : fixupRun R) :
  ∃ calls,
    sshCalls (Run_iptablesWorkaround coreMachines st) = sshCalls st ++ calls ∧
    calls.*1 = coreMachines ≫= workaroundFor ∧
    stderr (Run_iptablesWorkaround coreMachines st)
      = stderr st ++ omap warningOf calls.
Proof.
  unfold Run_iptablesWorkaround. revert st.
  induction coreMachines as [|m rest IH]; intros st.
  - exists []. cbn. by rewrite !app_nil_r.
  - cbn [foldl].
    match goal with
    | |- context [foldl ?f ?st1 rest] =>
        destruct (IH st1) as (calls & Hcalls & Hcmds & Herr)
    end.
    unfold runOrWarn in Hcalls, Herr |- *.
    destruct (RunSSHCommand m dropGwbridgeToDocker0 (remote st)) as [r1 remote1].
    cbn [remote stderr sshCalls] in Hcalls, Herr |- *.
    destruct (RunSSHCommand m dropDocker0ToGwbridge remote1) as [r2 remote2].
    cbn [remote stderr sshCalls] in Hcalls, Herr |- *.
    exists ((m, dropGwbridgeToDocker0, r1) :: (m, dropDocker0ToGwbridge, r2) :: calls).
    split; [| split].
    + rewrite Hcalls. by rewrite <- !app_assoc.
    + rewrite bind_cons, !fmap_cons, Hcmds. done.
    + rewrite Herr. destruct r1, r2; cbn; by rewrite <- ?app_assoc.
Qed.

(** ** [Uninstall.Run] *)

Section UninstallClaims.

Variable NewInstallConfig : string → ComponentsConfig.
Variable fmtValue : value → string.
Variable ReadConfigFile : string → result ConfigData.
Context `{dm.MachineProvisioner P}.
Variable NewDockerMachine : dm.DockerMachineConfig → result P.
Variable api_Uninstall : string → option string.

Local Abbreviation uninstall :=
  (Uninstall_Run NewInstallConfig fmtValue ReadConfigFile NewDockerMachine
                 api_Uninstall).

(** X20.  In a run of [Uninstall.Run] that starts without a machine: if
    the docker machine gets created, the calls made on it are one
    [DeleteAll] followed by one [Close], on every way out, and no machine
    is provisioned; if it does not get created, the run fails and the API
    is not touched.  The API is asked to uninstall at most once, under the
    name of the resolved plan, and only after [DeleteAll] returned no
    error.  A run that succeeds has deleted the machines, closed the
    machine and uninstalled the API. *)
Theorem Uninstall_Run_releases (file : string) (st : uninstallRun P) :
  dockerMachine st = None →
  (∀ d, dockerMachine (uninstall file st).2 = Some d →
        d.2 = [dm.CallDeleteAll; dm.CallClose]) ∧
  (dockerMachine (uninstall file st).2 = None →
     (uninstall file st).1 ≠ Ok tt ∧
     apiCalls (uninstall file st).2 = apiCalls st) ∧
  (apiCalls (uninstall file st).2 = apiCalls st ∨
   apiCalls (uninstall file st).2
     = apiCalls st
       ++ [dm.cfgName (DockerMachineConfig (shared (uninstall file st).2))]) ∧
  (apiCalls (uninstall file st).2 ≠ apiCalls st →
     ∃ config d0,
       (parseConfigFile NewInstallConfig fmtValue ReadConfigFile file (shared st)).1
         = Ok config ∧
       NewDockerMachine (DockerMachineConfig config) = inl d0 ∧
       (dm.DeleteAll d0).1 = None) ∧
  ((uninstall file st).1 = Ok tt →
     is_Some (dockerMachine (uninstall file st).2) ∧
     apiCalls (uninstall file st).2 ≠ apiCalls st).
Proof.
  intros Hfresh. unfold Uninstall_Run.
  pose proof (parseConfigFile_returnsState NewInstallConfig fmtValue
                ReadConfigFile file (shared st)) as Hstate.
  destruct (parseConfigFile _ _ _ file (shared st)) as [[config | e | pn] g];
    cbn [fst snd] in *.
  - specialize (Hstate config eq_refl). subst g.
    destruct (NewDockerMachine (DockerMachineConfig config)) as [d0 | e] eqn:Hnew.
    + unfold callDeleteAll, callClose. cbn [fst snd].
      destruct (dm.DeleteAll d0) as [[e |] d1] eqn:Hdel; cbn [fst snd].
      * cbn. repeat split; try done.
        -- by intros d [= <-].
        -- by left.
      * assert (∀ l : list string, l ++ [dm.cfgName (DockerMachineConfig config)] ≠ l)
          as Hgrow.
        { intros l Heq. apply (f_equal length) in Heq.
          rewrite length_app in Heq. simpl in Heq. lia. }
        destruct (api_Uninstall _) as [e |]; cbn.
        -- split; [by intros d [= <-] |]. split; [done |]. split; [by right |].
           split; [| done]. intros _. exists config, d0. by rewrite Hdel.
        -- split; [by intros d [= <-] |]. split; [done |]. split; [by right |].
           split; [intros _; exists config, d0; by rewrite Hdel |].
           intros _. split; [eauto | apply Hgrow].
    + cbn. rewrite Hfresh. repeat split; try done. by left.
  - cbn. rewrite Hfresh. repeat split; try done. by left.
  - cbn. rewrite Hfresh. repeat split; try done. by left.
Qed.

End UninstallClaims.

(** ** The further properties on concrete inputs *)

Ltac distinct_values :=
  repeat (apply NoDup_cons_2;
          [ let Hin := fresh in
            intros Hin;
            repeat (apply elem_of_cons in Hin as [Hin | Hin]; [discriminate Hin |]);
            by apply elem_of_nil in Hin
          | ]);
  apply NoDup_nil_2.

Lemma optionEntries_NoDup : NoDup Fake.optionEntries.*1.
Proof. cbn. distinct_values. Defined.

Lemma parseDriverOptsSlice_lookup_witness :
  NoDup Fake.optionEntries.*1 ∧
  ∃ parsed,
    parseDriverOptsSlice Fake.fmtValue (VMap Fake.optionEntries)
      = (Some parsed, None) ∧
    parsed !! "size" = Some [VStr "big"].
Proof.
  split; [exact optionEntries_NoDup |].
  destruct (parseDriverOptsSlice_lookup Fake.fmtValue Fake.optionEntries
              optionEntries_NoDup) as (parsed & Hparsed & Hentry & _).
  exists parsed. split; [exact Hparsed |].
  apply (Hentry "size" (VStr "big")). right. left.
Defined.

Lemma parseDriverOptsSlice_nonEmpty_witness :
  NoDup Fake.optionEntries.*1 ∧
  (nonEmptyLists
     (mapOf (parseDriverOptsSlice Fake.fmtValue (VMap Fake.optionEntries)).1)
   ↔ ∀ k, (VStr k, VSeq []) ∉ Fake.optionEntries).
Proof.
  split; [exact optionEntries_NoDup |].
  exact (parseDriverOptsSlice_nonEmpty Fake.fmtValue Fake.optionEntries
           optionEntries_NoDup).
Defined.

Lemma parseDriverOptsSlice_order_witness :
  NoDup Fake.optionEntries.*1 ∧
  Fake.optionEntries
    ≡ₚ [(VStr "size", VStr "big"); (VStr "zone", VSeq [VStr "a"; VStr "b"]);
        (VInt 7, VStr "ignored")] ∧
  parseDriverOptsSlice Fake.fmtValue (VMap Fake.optionEntries)
  = parseDriverOptsSlice Fake.fmtValue
      (VMap [(VStr "size", VStr "big"); (VStr "zone", VSeq [VStr "a"; VStr "b"]);
             (VInt 7, VStr "ignored")]).
Proof.
  split; [exact optionEntries_NoDup |].
  split; [apply perm_swap |].
  exact (parseDriverOptsSlice_order Fake.fmtValue Fake.optionEntries _
           optionEntries_NoDup (perm_swap _ _ _)).
Defined.

Lemma parseConfigFile_absent_keys_untouched_witness :
  Fake.readConfigFile [("install.yml", Fake.coreSize3)] "install.yml"
    = inl (Fake.fromDocument Fake.coreSize3) ∧
  AppsHosts (Fake.resolve Fake.coreSize3 "install.yml"
               (setAppsHosts 7 Fake.defaultPlan)).2 = 7.
Proof.
  split; [reflexivity |].
  destruct (parseConfigFile_absent_keys_untouched
              Fake.newInstallConfig Fake.fmtValue
              (Fake.readConfigFile [("install.yml", Fake.coreSize3)])
              "install.yml" (Fake.fromDocument Fake.coreSize3)
              (setAppsHosts 7 Fake.defaultPlan) eq_refl)
    as (_ & _ & _ & _ & _ & _ & Happs & _).
  apply Happs. eexists. reflexivity.
Defined.

Lemma parseConfigFile_present_keys_assigned_witness :
  "install.yml" ≠ "" ∧
  Fake.readConfigFile [("install.yml", Fake.prodDocument)] "install.yml"
    = inl (Fake.fromDocument Fake.prodDocument) ∧
  (Fake.resolve Fake.prodDocument "install.yml" Fake.defaultPlan).1
    = Ok (setComponentsConfig (Fake.newInstallConfig "prod")
            (setCoreHosts 3
               (setDockerMachineConfig (withName "prod") Fake.defaultPlan))) ∧
  TargetName (Fake.newInstallConfig "prod") = "prod" ∧
  ComponentsConfig_
    (setComponentsConfig (Fake.newInstallConfig "prod")
       (setCoreHosts 3 (setDockerMachineConfig (withName "prod") Fake.defaultPlan)))
  = Fake.newInstallConfig
      (dm.cfgName
         (DockerMachineConfig
            (setComponentsConfig (Fake.newInstallConfig "prod")
               (setCoreHosts 3
                  (setDockerMachineConfig (withName "prod") Fake.defaultPlan))))).
Proof.
  split; [discriminate |]. split; [reflexivity |].
  split; [vm_compute; reflexivity |]. split; [reflexivity |].
  destruct (parseConfigFile_present_keys_assigned
              Fake.newInstallConfig Fake.fmtValue
              (Fake.readConfigFile [("install.yml", Fake.prodDocument)])
              "install.yml" (Fake.fromDocument Fake.prodDocument)
              Fake.defaultPlan
              (setComponentsConfig (Fake.newInstallConfig "prod")
                 (setCoreHosts 3
                    (setDockerMachineConfig (withName "prod") Fake.defaultPlan)))
              ltac:(discriminate) eq_refl ltac:(vm_compute; reflexivity))
    as (_ & _ & _ & _ & _ & _ & _ & _ & _ & _ & _ & Hcomponents).
  exact Hcomponents.
Defined.

Lemma parseConfigFile_driver_options_not_a_mapping_witness :
  "install.yml" ≠ "" ∧
  notMapping (getOrNil (Fake.fromDocument Fake.driverOptionsScalar) "driver:options") ∧
  (Fake.resolve Fake.driverOptionsScalar "install.yml" Fake.defaultPlan).1
    = Panic InterfaceConversion.
Proof.
  split; [discriminate |]. split; [exact I |].
  exact (parseConfigFile_driver_options_not_a_mapping
           Fake.newInstallConfig Fake.fmtValue
           (Fake.readConfigFile [("install.yml", Fake.driverOptionsScalar)])
           "install.yml" (Fake.fromDocument Fake.driverOptionsScalar)
           Fake.defaultPlan ltac:(discriminate) eq_refl I).
Defined.

Lemma parseConfigFile_host_options_not_a_mapping_witness :
  "install.yml" ≠ "" ∧
  mappingOrNil (getOrNil (Fake.fromDocument Fake.coreOptionsScalar) "driver:options") ∧
  notMapping (getOrNil (Fake.fromDocument Fake.coreOptionsScalar)
                       "hosts:core:driver:options") ∧
  CoreDriversOpts
    (Fake.resolve Fake.coreOptionsScalar "install.yml" Fake.defaultPlan).2 = None.
Proof.
  split; [discriminate |]. split; [exact I |]. split; [exact I |].
  destruct (parseConfigFile_host_options_not_a_mapping
              Fake.newInstallConfig Fake.fmtValue
              (Fake.readConfigFile [("install.yml", Fake.coreOptionsScalar)])
              "install.yml" (Fake.fromDocument Fake.coreOptionsScalar)
              Fake.defaultPlan ltac:(discriminate) eq_refl I) as [Hcore _].
  destruct (Hcore I) as (_ & Hnil & _). exact Hnil.
Defined.

Lemma ProvisionMachines_faults_before_any_call_witness :
  (ProvisionMachines 2 Fake.noZone ([inl Fake.m0; inl Fake.m1], [])).1
    = Panic DivideByZero ∧
  (ProvisionMachines 2 Fake.noZone ([inl Fake.m0; inl Fake.m1], [])).2
    = ([inl Fake.m0; inl Fake.m1], []).
Proof.
  split; [reflexivity |].
  destruct (ProvisionMachines_faults_before_any_call
              2 Fake.noZone ([inl Fake.m0; inl Fake.m1], []) DivideByZero
              eq_refl) as (_ & Hsame & _).
  exact Hsame.
Defined.

Lemma ProvisionPool_error_witness :
  (ProvisionPool (setAppsHosts 5 Fake.defaultPlan) [Fake.c0; Fake.c1; Fake.c2]
                 ([inl Fake.m0; inr "boom"], [])).1
    = Err "failed to provision pool hosts: failed to provision machines: boom" ∧
  ∃ (steps : list (DriverOpts * result Machine)) (provisioned : list Machine)
    (cause : string),
    steps.*2 = (inl <$> provisioned) ++ [inr cause].
Proof.
  assert ((ProvisionPool (setAppsHosts 5 Fake.defaultPlan)
                         [Fake.c0; Fake.c1; Fake.c2]
                         ([inl Fake.m0; inr "boom"], [])).1
          = Err "failed to provision pool hosts: failed to provision machines: boom")
    as Herr by (vm_compute; reflexivity).
  split; [exact Herr |].
  destruct (ProvisionPool_error _ _ _ _ Herr)
    as (steps & provisioned & cause & _ & Hsteps & _).
  exists steps, provisioned, cause. exact Hsteps.
Defined.



Lemma twins_rangeOf :
  rangeOf (Run_machineIndex [Fake.twinOld; Fake.c0] [Fake.twinNew])
          (Run_uniqueMachines [Fake.twinOld; Fake.c0] [Fake.twinNew]).
Proof. unfold rangeOf, Run_uniqueMachines. reflexivity. Defined.

Lemma Run_uniqueMachines_cover_witness :
  rangeOf (Run_machineIndex [Fake.twinOld; Fake.c0] [Fake.twinNew])
          (Run_uniqueMachines [Fake.twinOld; Fake.c0] [Fake.twinNew]) ∧
  (length (Run_uniqueMachines [Fake.twinOld; Fake.c0] [Fake.twinNew])
   ≤ length ([Fake.twinOld; Fake.c0] ++ [Fake.twinNew]))%nat.
Proof.
  split; [exact twins_rangeOf |].
  exact (proj1 (proj2 (Run_uniqueMachines_cover
                         [Fake.twinOld; Fake.c0] [Fake.twinNew] _ twins_rangeOf))).
Defined.

Lemma core_names_NoDup : NoDup (dm.Name <$> [Fake.c0; Fake.c1; Fake.c2]).
Proof. cbn. distinct_values. Defined.

Lemma reused_core_machines_are_registered_once_witness :
  DedicatedAppsHosts (setAppsHosts 2 Fake.defaultPlan) = false ∧
  0 ≤ AppsHosts (setAppsHosts 2 Fake.defaultPlan)
    ≤ Z.of_nat (length [Fake.c0; Fake.c1; Fake.c2]) ∧
  NoDup (dm.Name <$> [Fake.c0; Fake.c1; Fake.c2]) ∧
  ∃ appsMachines,
    ProvisionPool (setAppsHosts 2 Fake.defaultPlan) [Fake.c0; Fake.c1; Fake.c2]
                  ([inl Fake.m0], [])
    = (Ok appsMachines, ([inl Fake.m0], [])).
Proof.
  split; [reflexivity |]. split; [simpl; lia |]. split; [exact core_names_NoDup |].
  destruct (reused_core_machines_are_registered_once
              (setAppsHosts 2 Fake.defaultPlan) [Fake.c0; Fake.c1; Fake.c2] []
              ([inl Fake.m0], []) eq_refl ltac:(simpl; lia) core_names_NoDup)
    as (appsMachines & Hpool & _).
  exists appsMachines. exact Hpool.
Defined.

Lemma Uninstall_Run_releases_witness :
  dockerMachine {| shared := Fake.defaultPlan;
                   dockerMachine := @None (logged (list (result Machine)));
                   apiCalls := []; uStdout := []; uStderr := [] |} = None ∧
  ∀ d, dockerMachine (Fake.uninstallFrom Fake.coreSize3 "install.yml").2 = Some d →
       d.2 = [dm.CallDeleteAll; dm.CallClose].
Proof.
  split; [reflexivity |].
  exact (proj1 (Uninstall_Run_releases
                  Fake.newInstallConfig Fake.fmtValue
                  (Fake.readConfigFile [("install.yml", Fake.coreSize3)])
                  Fake.newDockerMachine Fake.apiUninstall "install.yml"
                  {| shared := Fake.defaultPlan; dockerMachine := None; apiCalls := [];
                     uStdout := []; uStderr := [] |} eq_refl)).
Defined.

(** An uninstall that goes well: machines deleted, machine closed, API
    uninstalled under the plan's name. *)
Example uninstall_default :
  (Fake.uninstallFrom Fake.coreSize3 "").1 = Ok tt ∧
  dockerMachine (Fake.uninstallFrom Fake.coreSize3 "").2
    = Some ([], [dm.CallDeleteAll; dm.CallClose]) ∧
  apiCalls (Fake.uninstallFrom Fake.coreSize3 "").2 = ["tsuru"].
Proof. vm_compute. repeat split. Qed.

Lemma parseConfigFile_succeeds_iff_witness :
  "install.yml" ≠ "" ∧
  Fake.readConfigFile [("install.yml", Fake.coreOptionsScalar)] "install.yml"
    = inl (Fake.fromDocument Fake.coreOptionsScalar) ∧
  ¬ ∃ plan,
      (Fake.resolve Fake.coreOptionsScalar "install.yml" Fake.defaultPlan).1
      = Ok plan.
Proof.
  split; [discriminate |]. split; [reflexivity |].
  intros Hplan.
  apply (parseConfigFile_succeeds_iff
           Fake.newInstallConfig Fake.fmtValue
           (Fake.readConfigFile [("install.yml", Fake.coreOptionsScalar)])
           "install.yml" (Fake.fromDocument Fake.coreOptionsScalar)
           Fake.defaultPlan ltac:(discriminate) eq_refl) in Hplan
    as (_ & Hcore & _).
  exact Hcore.
Defined.

Lemma parseConfigFile_idempotent_witness :
  (Fake.resolve Fake.coreSize3 "install.yml" Fake.defaultPlan).1
    = Ok (setCoreHosts 3 Fake.defaultPlan) ∧
  Fake.resolve Fake.coreSize3 "install.yml" (setCoreHosts 3 Fake.defaultPlan)
    = (Ok (setCoreHosts 3 Fake.defaultPlan), setCoreHosts 3 Fake.defaultPlan).
Proof.
  assert ((Fake.resolve Fake.coreSize3 "install.yml" Fake.defaultPlan).1
          = Ok (setCoreHosts 3 Fake.defaultPlan)) as Hplan
    by (vm_compute; reflexivity).
  split; [exact Hplan |].
  exact (parseConfigFile_idempotent
           Fake.newInstallConfig Fake.fmtValue
           (Fake.readConfigFile [("install.yml", Fake.coreSize3)])
           "install.yml" Fake.defaultPlan (setCoreHosts 3 Fake.defaultPlan) Hplan).
Defined.
